(** * nuScenes-SR dataloader: a shallow embedding of [dataloader.py]

    The class [NuScenesSRDataloader] is embedded function by function.
    Python values are modelled as follows:
    - [str] as [string], [list] as [list], [int] as [Z] (or [nat] for
      lengths and indices that cannot be negative);
    - [dict] as an insertion-ordered association list with unique keys
      ([dict_get], [dict_set]), because the corpus order is observable;
    - [set] as stdpp's [gset];
    - [float] as IEEE-754 binary64 values of the Standard Library's
      [spec_float], with the operations at precision 53 and [emax] 1024;
    - exceptions as the [Raise] case of [result];
    - the module-level generator of [random] as an explicit state that the
      sampling and splitting methods thread through. *)

From Stdlib Require Import ZArith SpecFloat.
From stdpp Require Import base decidable option list strings gmap sorting pretty.

(** ** Exceptions and results *)

Inductive exn : Type :=
  | ValueError (msg : string)
  | OverflowError (msg : string)
  | IndexError (msg : string)
  | KeyError (key : string).

Inductive result (A : Type) : Type :=
  | Ok (a : A)
  | Raise (e : exn).
Arguments Ok {A} a.
Arguments Raise {A} e.

(** ** Insertion-ordered dictionaries *)

Section Dict.
Context {K V : Type} `{EqDecision K}.

(** [d.get(k)] *)
Fixpoint dict_get (d : list (K * V)) (k : K) : option V :=
  match d with
  | [] => None
  | (k', v) :: d' => if decide (k' = k) then Some v else dict_get d' k
  end.

(** [d[k] = v]: an existing key keeps its position, a new key goes last. *)
Fixpoint dict_set (d : list (K * V)) (k : K) (v : V) : list (K * V) :=
  match d with
  | [] => [(k, v)]
  | (k', v') :: d' =>
      if decide (k' = k) then (k', v) :: d' else (k', v') :: dict_set d' k v
  end.

Definition dict_keys (d : list (K * V)) : list K := d.*1.
Definition dict_values (d : list (K * V)) : list V := d.*2.
Definition dict_items (d : list (K * V)) : list (K * V) := d.

(** Building a dict from the members of a JSON object, in document order;
    a repeated key keeps its first position and its last value. *)
Definition dict_of_pairs (l : list (K * V)) : list (K * V) :=
  foldl (λ d kv, dict_set d kv.1 kv.2) [] l.
End Dict.

(** ** Data model *)

Record SceneRecord : Type := mkScene {
  labels : list string;
  description : string
}.

Definition DYNAMIC_SCENES : list string :=
  ["PED_CROSSING"; "LEFT_TURN"; "RIGHT_TURN"; "CONSTRUCTION_VEHICLE";
   "AVOID_STATIONARY"].

Definition STATIC_SCENES : list string :=
  ["INTERSECTION"; "PARKING_LOT"; "TRAFFIC_LIGHT"; "RAINY_WEATHER";
   "CONSTRUCTION_ZONE"].

Definition ALL_SCENES : list string := DYNAMIC_SCENES ++ STATIC_SCENES.

Record NuScenesSRDataloader : Type := mkLoader {
  data : list (string * SceneRecord);
  scene_tokens : list string
}.

(** [json.load] on the annotation file: the document is given by the
    members of its top-level object. *)
Definition _load_data (doc : list (string * SceneRecord))
  : list (string * SceneRecord) :=
  dict_of_pairs doc.

(** [__init__], after the file has been found and read. *)
Definition init (doc : list (string * SceneRecord)) : NuScenesSRDataloader :=
  let d := _load_data doc in
  {| data := d; scene_tokens := dict_keys d |}.

Definition get_scene_data (self : NuScenesSRDataloader) (scene_token : string)
  : option SceneRecord :=
  dict_get (data self) scene_token.

(** ** Label queries *)

(** [repr] of a list of strings that contain no quote, backslash or
    unprintable character, as [ALL_SCENES] does. *)
Definition repr_str_list (l : list string) : string :=
  "[" +:+ String.concat ", " (map (λ s, "'" +:+ s +:+ "'") l) +:+ "]".

(** [f"Invalid label: {label}. Must be one of {self.ALL_SCENES}"] *)
Definition invalid_label_msg (label : string) : string :=
  "Invalid label: " +:+ label +:+ ". Must be one of " +:+ repr_str_list ALL_SCENES.

Definition get_scenes_by_label (self : NuScenesSRDataloader) (label : string)
  : result (list (string * SceneRecord)) :=
  if bool_decide (label ∉ ALL_SCENES) then
    Raise (ValueError (invalid_label_msg label))
  else
    Ok (foldl
          (λ scenes '(token, d),
             if bool_decide (label ∈ labels d) then scenes ++ [(token, d)]
             else scenes)
          [] (dict_items (data self))).

(** The validation loop at the head of [get_scenes_by_labels]: the first
    label outside [ALL_SCENES] raises. *)
Fixpoint check_labels (ls : list string) : result unit :=
  match ls with
  | [] => Ok ()
  | label :: ls' =>
      if bool_decide (label ∉ ALL_SCENES) then
        Raise (ValueError (invalid_label_msg label))
      else check_labels ls'
  end.

Definition get_scenes_by_labels (self : NuScenesSRDataloader)
    (ls : list string) (mode : string)
  : result (list (string * SceneRecord)) :=
  match check_labels ls with
  | Raise e => Raise e
  | Ok _ =>
      Ok (foldl
            (λ scenes '(token, d),
               let scene_labels : gset string := list_to_set (labels d) in
               let target_labels : gset string := list_to_set ls in
               if bool_decide (mode = "any")
                  && bool_decide (scene_labels ∩ target_labels ≠ ∅)
               then scenes ++ [(token, d)]
               else if bool_decide (mode = "all")
                       && bool_decide (target_labels ⊆ scene_labels)
               then scenes ++ [(token, d)]
               else scenes)
            [] (dict_items (data self)))
  end.

Definition get_dynamic_scenes (self : NuScenesSRDataloader) :=
  get_scenes_by_labels self DYNAMIC_SCENES "any".

Definition get_static_scenes (self : NuScenesSRDataloader) :=
  get_scenes_by_labels self STATIC_SCENES "any".

(** ** Label statistics *)

(** [counter[key] += 1] on a [Counter]: a missing key reads as 0. *)
Definition counter_incr {K} `{EqDecision K} (c : list (K * nat)) (key : K)
  : list (K * nat) :=
  dict_set c key (default 0 (dict_get c key) + 1).

Definition get_label_statistics (self : NuScenesSRDataloader)
  : list (string * nat) :=
  foldl (λ label_counts d, foldl counter_incr label_counts (labels d))
        [] (dict_values (data self)).

Definition get_multi_label_statistics (self : NuScenesSRDataloader)
  : list (nat * nat) :=
  foldl (λ multi_label_counts d,
           let num_labels := length (labels d) in
           counter_incr multi_label_counts num_labels)
        [] (dict_values (data self)).

(** ** Floating point: Python [float] is IEEE-754 binary64 *)

Definition float : Type := spec_float.

Definition fadd : float → float → float := SFadd 53 1024.
Definition fsub : float → float → float := SFsub 53 1024.
Definition fmul : float → float → float := SFmul 53 1024.
Definition fabs : float → float := SFabs.
(** [x > y] and [x <= y]; both are [false] when an operand is NaN. *)
Definition fgt (x y : float) : bool := SFltb y x.
Definition fle (x y : float) : bool := SFleb x y.

(** The literals [1.0], [1e-6], [0.0], [0.5] of the source and of the
    specification's scenarios, as the nearest binary64 values. *)
Definition f_one : float := S754_finite false 4503599627370496 (-52).
Definition f_1em6 : float := S754_finite false 4722366482869645 (-72).
Definition f_zero : float := S754_zero false.
Definition f_half : float := S754_finite false 4503599627370496 (-53).

(** [float(z)] as done implicitly by [int * float]: round to nearest even,
    [OverflowError] beyond the largest finite double. *)
Definition float_of_int (z : Z) : result float :=
  match binary_normalize 53 1024 z 0 false with
  | S754_infinity _ => Raise (OverflowError "int too large to convert to float")
  | f => Ok f
  end.

(** [int(x)]: truncation towards zero. *)
Definition int_of_float (x : float) : result Z :=
  match x with
  | S754_nan => Raise (ValueError "cannot convert float NaN to integer")
  | S754_infinity _ =>
      Raise (OverflowError "cannot convert float infinity to integer")
  | S754_zero _ => Ok 0%Z
  | S754_finite s m e =>
      Ok (cond_Zopp s
            (if (e <? 0)%Z then Z.shiftr (Zpos m) (- e) else Z.shiftl (Zpos m) e))
  end.

(** [int(total_scenes * ratio)] *)
Definition split_point (total_scenes : nat) (ratio : float) : result Z :=
  match float_of_int (Z.of_nat total_scenes) with
  | Raise e => Raise e
  | Ok t => int_of_float (fmul t ratio)
  end.

(** [abs(train_ratio + val_ratio + test_ratio - 1.0) > 1e-6] *)
Definition ratios_invalid (train_ratio val_ratio test_ratio : float) : bool :=
  fgt (fabs (fsub (fadd (fadd train_ratio val_ratio) test_ratio) f_one)) f_1em6.

(** ** Python slices [l[start:stop]] with optional, possibly negative bounds *)

Definition slice_index (len : nat) (i : Z) : nat :=
  if (i <? 0)%Z then Z.to_nat (Z.max 0 (i + Z.of_nat len))
  else Z.to_nat (Z.min i (Z.of_nat len)).

Definition py_slice {A} (l : list A) (start stop : option Z) : list A :=
  let a := from_option (slice_index (length l)) 0 start in
  let b := from_option (slice_index (length l)) (length l) stop in
  take (b - a) (drop a l).

(** ** The [random] module

    The generator behind [random.seed], [random.shuffle] and
    [random.sample] is not part of the repository. Its state, its seeding
    function and its [_randbelow] are an interface; [shuffle] and [sample]
    are the algorithms of CPython's [random.py] over that interface.
    [randbelow_lt] is the contract of [_randbelow]; [randbelow_fresh] says
    that the rejection loop of [sample] ends whenever an index is left to
    draw. [ceil_log4] stands for [_ceil(_log(k * 3, 4))], which CPython
    computes in floating point. *)

(** [j = randbelow(n); while j in selected: j = randbelow(n)] *)
Fixpoint reject_loop {S : Type} (rb : S → nat → nat * S)
    (fuel : nat) (st : S) (n : nat) (selected : gset nat) : option (nat * S) :=
  match fuel with
  | 0 => None
  | S fuel' =>
      let '(j, st') := rb st n in
      if bool_decide (j ∈ selected) then reject_loop rb fuel' st' n selected
      else Some (j, st')
  end.

Class RandomSource : Type := {
  rng_state : Type;
  rng_seed : Z → rng_state;
  randbelow : rng_state → nat → nat * rng_state;
  ceil_log4 : nat → nat;
  randbelow_lt : ∀ st n, 0 < n → (randbelow st n).1 < n;
  randbelow_fresh : ∀ st n (selected : gset nat),
    (∃ j, j < n ∧ j ∉ selected) →
    ∃ fuel, is_Some (reject_loop randbelow fuel st n selected)
}.

Section Random.
Context `{RandomSource}.

(** [if random_seed is not None: random.seed(random_seed)] *)
Definition seed_if_given (random_seed : option Z) (st : rng_state)
  : rng_state :=
  match random_seed with
  | Some a => rng_seed a
  | None => st
  end.

(** [x[i], x[j] = x[j], x[i]] *)
Definition swap {A} (x : list A) (i j : nat) : option (list A) :=
  match x !! i, x !! j with
  | Some xi, Some xj => Some (<[j := xi]> (<[i := xj]> x))
  | _, _ => None
  end.

(** [for i in reversed(range(1, len(x))): j = randbelow(i + 1); swap],
    entered with [i = len(x) - 1]. *)
Fixpoint shuffle_loop {A} (i : nat) (x : list A) (st : rng_state)
  : result (list A) * rng_state :=
  match i with
  | 0 => (Ok x, st)
  | S i' =>
      let '(j, st') := randbelow st (i + 1) in
      match swap x i j with
      | Some x' => shuffle_loop i' x' st'
      | None => (Raise (IndexError "list index out of range"), st')
      end
  end.

Definition shuffle {A} (x : list A) (st : rng_state)
  : result (list A) * rng_state :=
  shuffle_loop (length x - 1) x st.

(** [setsize = 21; if k > 5: setsize += 4 ** _ceil(_log(k * 3, 4))] *)
Definition setsize (k : nat) : nat :=
  21 + (if bool_decide (5 < k) then 4 ^ ceil_log4 k else 0).

(** The pool branch of [sample]:
    [for i in range(k): j = randbelow(n - i); result[i] = pool[j];
     pool[j] = pool[n - i - 1]].
    [todo] counts the iterations left; [res] is the list [result], which
    is filled in index order, kept as the slots filled so far. *)
Fixpoint sample_pool {A} (n todo i : nat) (pool res : list A)
    (st : rng_state) : result (list A) * rng_state :=
  match todo with
  | 0 => (Ok res, st)
  | S todo' =>
      let '(j, st') := randbelow st (n - i) in
      match pool !! j, pool !! (n - i - 1) with
      | Some pj, Some plast =>
          sample_pool n todo' (S i) (<[j := plast]> pool) (res ++ [pj]) st'
      | _, _ => (Raise (IndexError "list index out of range"), st')
      end
  end.

(** The set branch of [sample]:
    [for i in range(k): j = randbelow(n); while j in selected: ...;
     selected_add(j); result[i] = population[j]].
    [None] when a rejection loop runs out of [fuel]. *)
Fixpoint sample_set {A} (fuel n todo : nat) (population : list A)
    (selected : gset nat) (res : list A) (st : rng_state)
  : option (result (list A) * rng_state) :=
  match todo with
  | 0 => Some (Ok res, st)
  | S todo' =>
      match reject_loop randbelow fuel st n selected with
      | None => None
      | Some (j, st') =>
          match population !! j with
          | Some pj =>
              sample_set fuel n todo' population ({[j]} ∪ selected)
                         (res ++ [pj]) st'
          | None => Some (Raise (IndexError "list index out of range"), st')
          end
      end
  end.

(** [random.sample(population, k)] *)
Definition sample {A} (fuel : nat) (population : list A) (k : Z)
    (st : rng_state) : option (result (list A) * rng_state) :=
  let n := length population in
  if negb ((0 <=? k)%Z && (k <=? Z.of_nat n)%Z) then
    Some (Raise (ValueError "Sample larger than population or is negative"),
          st)
  else if bool_decide (n ≤ setsize (Z.to_nat k)) then
    Some (sample_pool n (Z.to_nat k) 0 population [] st)
  else
    sample_set fuel n (Z.to_nat k) population ∅ [] st.

(** ** Sampling and splitting *)

(** [[(token, self.data[token]) for token in sample_tokens]] *)
Fixpoint pair_with_data (d : list (string * SceneRecord))
    (tokens : list string) : result (list (string * SceneRecord)) :=
  match tokens with
  | [] => Ok []
  | token :: tokens' =>
      match dict_get d token with
      | None => Raise (KeyError token)
      | Some r =>
          match pair_with_data d tokens' with
          | Raise e => Raise e
          | Ok ps => Ok ((token, r) :: ps)
          end
      end
  end.

Definition sample_scenes (fuel : nat) (self : NuScenesSRDataloader)
    (n : Z) (random_seed : option Z) (st : rng_state)
  : option (result (list (string * SceneRecord)) * rng_state) :=
  let st := seed_if_given random_seed st in
  match sample fuel (scene_tokens self)
               (Z.min n (Z.of_nat (length (scene_tokens self)))) st with
  | None => None
  | Some (Raise e, st') => Some (Raise e, st')
  | Some (Ok sample_tokens, st') =>
      Some (pair_with_data (data self) sample_tokens, st')
  end.

Definition split_dataset (self : NuScenesSRDataloader)
    (train_ratio val_ratio test_ratio : float) (random_seed : option Z)
    (st : rng_state)
  : result (list string * list string * list string) * rng_state :=
  if ratios_invalid train_ratio val_ratio test_ratio then
    (Raise (ValueError "Ratios must sum to 1.0"), st)
  else
    let st := seed_if_given random_seed st in
    match shuffle (scene_tokens self) st with
    | (Raise e, st') => (Raise e, st')
    | (Ok shuffled_tokens, st') =>
        let total_scenes := length shuffled_tokens in
        match split_point total_scenes train_ratio with
        | Raise e => (Raise e, st')
        | Ok train_end =>
            match split_point total_scenes val_ratio with
            | Raise e => (Raise e, st')
            | Ok val_len =>
                let val_end := (train_end + val_len)%Z in
                let train_tokens :=
                  py_slice shuffled_tokens None (Some train_end) in
                let val_tokens :=
                  py_slice shuffled_tokens (Some train_end) (Some val_end) in
                let test_tokens :=
                  py_slice shuffled_tokens (Some val_end) None in
                (Ok (train_tokens, val_tokens, test_tokens), st')
            end
        end
    end.
End Random.

(** ** The container protocol *)

(** [__len__] *)
Definition __len__ (self : NuScenesSRDataloader) : nat := length (data self).

(** [__getitem__]: it goes through [get_scene_data], hence through
    [dict.get], and not through [self.data[scene_token]]. *)
Definition __getitem__ (self : NuScenesSRDataloader) (scene_token : string)
  : option SceneRecord :=
  get_scene_data self scene_token.

(** [__iter__], run to its end: [for token in self.scene_tokens:
    yield token, self.data[token]]. *)
Definition __iter__ (self : NuScenesSRDataloader)
  : result (list (string * SceneRecord)) :=
  pair_with_data (data self) (scene_tokens self).

(** ** Printing the statistics

    [print_statistics] is embedded with the standard output as the list of
    the texts given to [print], one per call. Beside the exceptions of
    [exn] it can raise [ZeroDivisionError]. *)

Inductive stat_exn : Type :=
  | ZeroDivisionError (msg : string)
  | OtherError (e : exn).

(** [a / b] on non-negative [int]s: the quotient rounded to the nearest
    binary64 value. *)
Definition int_truediv (a b : nat) : stat_exn + float :=
  match Z.of_nat b, Z.of_nat a with
  | Z0, _ => inl (ZeroDivisionError "division by zero")
  | _, Z0 => inr (S754_zero false)
  | zb, za =>
      let '(mz, ez, lz) := SFdiv_core_binary 53 1024 za 0 zb 0 in
      match binary_round_aux 53 1024 false mz ez lz with
      | S754_infinity _ =>
          inl (OtherError
                 (OverflowError "integer division result too large for a float"))
      | q => inr q
      end
  end.

(** [(count / total_scenes) * 100] *)
Definition percentage_of (count total_scenes : nat) : stat_exn + float :=
  match int_truediv count total_scenes with
  | inl e => inl e
  | inr q =>
      match float_of_int 100 with
      | Raise e => inl (OtherError e)
      | Ok hundred => inr (fmul q hundred)
      end
  end.

(** The integer nearest to [n / d], ties going to the even one. *)
Definition round_half_even (n d : Z) : Z :=
  let q := (n / d)%Z in
  let r := (n mod d)%Z in
  match (2 * r ?= d)%Z with
  | Lt => q
  | Gt => (q + 1)%Z
  | Eq => if Z.even q then q else (q + 1)%Z
  end.

(** [f"{x:.1f}"]: the decimal with one digit after the point that is
    nearest to the exact value of [x]. *)
Definition format_1f (x : float) : string :=
  match x with
  | S754_nan => "nan"
  | S754_infinity s => if s then "-inf" else "inf"
  | S754_zero s => if s then "-0.0" else "0.0"
  | S754_finite s m e =>
      let tenths :=
        if (e <? 0)%Z then round_half_even (Z.pos m * 10) (2 ^ (- e))
        else (Z.pos m * 10 * 2 ^ e)%Z in
      (if s then "-" else "")
      +:+ pretty (tenths / 10)%Z +:+ "." +:+ pretty (tenths mod 10)%Z
  end.

Definition newline : string := String (Ascii.ascii_of_nat 10) "".

(** ["=" * 60] *)
Definition rule : string := String.concat "" (replicate 60 "=").

(** [for label in group: count = label_stats.get(label, 0); ...; print(...)] *)
Fixpoint print_label_lines (label_stats : list (string * nat))
    (total_scenes : nat) (group : list string) (out : list string)
  : list string * option stat_exn :=
  match group with
  | [] => (out, None)
  | label :: group' =>
      let count := default 0 (dict_get label_stats label) in
      match percentage_of count total_scenes with
      | inl e => (out, Some e)
      | inr percentage =>
          print_label_lines label_stats total_scenes group'
            (out ++ ["  " +:+ label +:+ ": " +:+ pretty count
                     +:+ " (" +:+ format_1f percentage +:+ "%)"])
      end
  end.

(** [for num_labels in sorted(multi_label_stats.keys()):
     count = multi_label_stats[num_labels]; ...; print(...)] *)
Fixpoint print_multi_label_lines (multi_label_stats : list (nat * nat))
    (total_scenes : nat) (keys : list nat) (out : list string)
  : list string * option stat_exn :=
  match keys with
  | [] => (out, None)
  | num_labels :: keys' =>
      match dict_get multi_label_stats num_labels with
      | None => (out, Some (OtherError (KeyError (pretty num_labels))))
      | Some count =>
          match percentage_of count total_scenes with
          | inl e => (out, Some e)
          | inr percentage =>
              print_multi_label_lines multi_label_stats total_scenes keys'
                (out ++ ["  " +:+ pretty num_labels +:+ " labels: "
                         +:+ pretty count +:+ " scenes ("
                         +:+ format_1f percentage +:+ "%)"])
          end
      end
  end.

(** [print_statistics]: the texts printed, and the exception that ended
    the printing, if any. *)
Definition print_statistics (self : NuScenesSRDataloader)
  : list string * option stat_exn :=
  let total_scenes := length (data self) in
  let out := [rule; "nuScenes-SR Dataset Statistics"; rule;
              "Total scenes: " +:+ pretty total_scenes] in
  let label_stats := get_label_statistics self in
  let out := out ++ [newline +:+ "Label occurrences:"] in
  let out := out ++ [newline +:+ "Dynamic Scenes:"] in
  match print_label_lines label_stats total_scenes DYNAMIC_SCENES out with
  | (out, Some e) => (out, Some e)
  | (out, None) =>
      let out := out ++ [newline +:+ "Static Scenes:"] in
      match print_label_lines label_stats total_scenes STATIC_SCENES out with
      | (out, Some e) => (out, Some e)
      | (out, None) =>
          let multi_label_stats := get_multi_label_statistics self in
          let out := out ++ [newline +:+ "Multi-label distribution:"] in
          match print_multi_label_lines multi_label_stats total_scenes
                  (merge_sort (≤) (dict_keys multi_label_stats)) out with
          | (out, Some e) => (out, Some e)
          | (out, None) => (out ++ [rule], None)
          end
      end
  end.

(** ** Export *)

(** The loop of [export_labels_only] that builds [labels_only]. *)
Definition labels_only_of (self : NuScenesSRDataloader)
    (tokens : list string) : list (string * list string) :=
  foldl (λ labels_only token,
           match dict_get (data self) token with
           | Some d => dict_set labels_only token (labels d)
           | None => labels_only
           end)
        [] tokens.

(** The document store maps a path to the JSON object written there;
    [json.dump] followed by [json.load] is the identity on an object whose
    values are lists of strings. *)
Definition export_labels_only (self : NuScenesSRDataloader)
    (output_path : string) (tokens : option (list string))
    (store : gmap string (list (string * list string)))
  : gmap string (list (string * list string)) :=
  let tokens := default (scene_tokens self) tokens in
  <[output_path := labels_only_of self tokens]> store.

(** Reading an exported document back as a token-to-labels mapping. *)
Definition reload_labels (store : gmap string (list (string * list string)))
    (path : string) : option (list (string * list string)) :=
  store !! path.

(** The requested tokens in the order of their first request. *)
Definition first_occurrences (tokens : list string) : list string :=
  foldl (λ seen token, if bool_decide (token ∈ seen) then seen else seen ++ [token])
        [] tokens.

(** The exported entry of a token: its labels, when the corpus has it. *)
Definition export_entry (self : NuScenesSRDataloader) (token : string)
  : option (string * list string) :=
  (λ d, (token, labels d)) <$> dict_get (data self) token.

(** ** The specification's reading of the queries and statistics *)

(** Mode ANY: the record's labels and the query share a label. *)
Definition intersects (record_labels query : list string) : Prop :=
  Exists (.∈ query) record_labels.

(** Mode ALL: every label of the query is a label of the record. *)
Definition superset_of (record_labels query : list string) : Prop :=
  Forall (.∈ record_labels) query.

#[local] Instance intersects_dec a b : Decision (intersects a b).
Proof. unfold intersects. apply _. Defined.

#[local] Instance superset_of_dec a b : Decision (superset_of a b).
Proof. unfold superset_of. apply _. Defined.

(** The number of labels that a histogram of label counts accounts for:
    the sum of [k * count] over its buckets. *)
Definition weighted_sum (h : list (nat * nat)) : nat :=
  sum_list (map (λ kc, kc.1 * kc.2) h).

(** Every label of the corpus, record after record. *)
Definition all_labels (self : NuScenesSRDataloader) : list string :=
  concat (labels <$> dict_values (data self)).

(** How often a key occurs in a list. *)
Definition occurrences {K} `{EqDecision K} (key : K) (keys : list K) : nat :=
  length (filter (key =.) keys).

(** ** The specification's reading of a split *)

(** The elements of [s] at the positions [i] with [lo <= i < hi]. *)
Definition interval {A} (s : list A) (lo hi : Z) : list A :=
  drop (Z.to_nat lo) (take (Z.to_nat hi) s).

(** The floor of a finite float. *)
Definition float_floor (x : float) : option Z :=
  match x with
  | S754_zero _ => Some 0%Z
  | S754_finite s m e =>
      Some (if (e <? 0)%Z then (cond_Zopp s (Zpos m) / 2 ^ (- e))%Z
            else (cond_Zopp s (Zpos m) * 2 ^ e)%Z)
  | _ => None
  end.

(** [floor(total * ratio)], the product being the binary64 product. *)
Definition floor_cut (total : nat) (ratio : float) : option Z :=
  match float_of_int (Z.of_nat total) with
  | Raise _ => None
  | Ok t => float_floor (fmul t ratio)
  end.

(** Three sequences that share no token, together hold exactly the tokens
    of the corpus, and whose lengths add up to its size. *)
Definition is_partition_of (tokens train val test : list string) : Prop :=
  (∀ x, x ∈ train → x ∉ val)
  ∧ (∀ x, x ∈ train → x ∉ test)
  ∧ (∀ x, x ∈ val → x ∉ test)
  ∧ (∀ x, x ∈ train ++ val ++ test ↔ x ∈ tokens)
  ∧ length train + length val + length test = length tokens
  ∧ train ++ val ++ test ≡ₚ tokens.

(** [split_dataset] returns an exact partition of the tokens. *)
Definition split_is_partition `{RandomSource} (self : NuScenesSRDataloader)
    (train_ratio val_ratio test_ratio : float) (random_seed : option Z)
    (st : rng_state) : Prop :=
  ∃ train val test st',
    split_dataset self train_ratio val_ratio test_ratio random_seed st
    = (Ok (train, val, test), st')
    ∧ is_partition_of (scene_tokens self) train val test.

(** [split_dataset] cuts the shuffled tokens at
    [trainEnd = floor(total * trainRatio)] and
    [valEnd = trainEnd + floor(total * valRatio)]:
    train is [[0, trainEnd)], val is [[trainEnd, valEnd)] and test is
    [[valEnd, total)]. *)
Definition split_slices_at_floor `{RandomSource} (self : NuScenesSRDataloader)
    (train_ratio val_ratio test_ratio : float) (random_seed : option Z)
    (st : rng_state) : Prop :=
  let total := length (scene_tokens self) in
  ∃ shuffled st' (trainEnd valLen : Z),
    shuffle (scene_tokens self) (seed_if_given random_seed st)
    = (Ok shuffled, st')
    ∧ shuffled ≡ₚ scene_tokens self
    ∧ floor_cut total train_ratio = Some trainEnd
    ∧ floor_cut total val_ratio = Some valLen
    ∧ let valEnd := (trainEnd + valLen)%Z in
      split_dataset self train_ratio val_ratio test_ratio random_seed st
      = (Ok (interval shuffled 0 trainEnd,
             interval shuffled trainEnd valEnd,
             interval shuffled valEnd (Z.of_nat total)), st').

(** [sample_scenes] returns [min(n, corpusSize)] pairs with pairwise
    distinct tokens, each pair being a token of the corpus with its record. *)
Definition sample_returns `{RandomSource} (fuel : nat)
    (self : NuScenesSRDataloader) (n : Z) (random_seed : option Z)
    (st : rng_state) : Prop :=
  ∃ pairs st',
    sample_scenes fuel self n random_seed st = Some (Ok pairs, st')
    ∧ Z.of_nat (length pairs) = Z.min n (Z.of_nat (length (data self)))
    ∧ NoDup pairs.*1
    ∧ (∀ token d, (token, d) ∈ pairs → get_scene_data self token = Some d).

(** The sizes of a split, or the error it raised. *)
Definition split_sizes
    (outcome : result (list string * list string * list string))
  : result (nat * nat * nat) :=
  match outcome with
  | Ok (train, val, test) => Ok (length train, length val, length test)
  | Raise e => Raise e
  end.

(** The default ratios [0.8] and [0.1], and the [0.3] of the
    specification's invalid scenario. *)
Definition f_0_8 : float := S754_finite false 7205759403792794 (-53).
Definition f_0_1 : float := S754_finite false 7205759403792794 (-56).
Definition f_0_3 : float := S754_finite false 5404319552844595 (-54).
Definition f_neg_half : float := S754_finite true 4503599627370496 (-53).

(** ** A concrete generator, used to run the model

    A counter: [randbelow st n] is [st mod n] and steps the counter. *)

Definition counter_randbelow (st n : nat) : nat * nat := (st mod n, S st).

Definition counter_ceil_log4 (k : nat) : nat := (Nat.log2_up (3 * k) + 1) / 2.

(** The two-record corpus of the specification's concrete scenario. *)
Definition corpus_ab : list (string * SceneRecord) :=
  [("a", mkScene ["PED_CROSSING"] "x");
   ("b", mkScene ["INTERSECTION"; "TRAFFIC_LIGHT"] "y")].

Definition corpus_abc : list (string * SceneRecord) :=
  corpus_ab ++ [("c", mkScene ["RAINY_WEATHER"] "z")].

(** * Properties *)

(** ** Dictionaries *)

Section DictFacts.
Context {K V : Type} `{EqDecision K}.
Implicit Types (d : list (K * V)) (k : K) (v : V).

Lemma dict_get_None d k : dict_get d k = None ↔ k ∉ dict_keys d.
Proof.
  unfold dict_keys. induction d as [|[k' v'] d IH]; csimpl.
  - split; [intros _; apply not_elem_of_nil | done].
  - rewrite not_elem_of_cons. case_decide as Hk.
    + split; [done | intros [Hne _]; congruence].
    + rewrite IH. split; [intros Hd; split; [congruence | done] | tauto].
Qed.

Lemma dict_get_is_Some d k : is_Some (dict_get d k) ↔ k ∈ dict_keys d.
Proof.
  rewrite <- not_eq_None_Some, dict_get_None.
  split; [apply dec_stable | tauto].
Qed.

Lemma dict_get_set d k v k' :
  dict_get (dict_set d k v) k' = if decide (k = k') then Some v else dict_get d k'.
Proof.
  induction d as [|[k0 v0] d IH]; csimpl.
  - repeat case_decide; congruence.
  - destruct (decide (k0 = k)) as [->|Hne]; csimpl.
    + repeat case_decide; congruence.
    + rewrite IH. repeat case_decide; congruence.
Qed.

Lemma dict_keys_set d k v :
  dict_keys (dict_set d k v)
  = if bool_decide (k ∈ dict_keys d) then dict_keys d else dict_keys d ++ [k].
Proof.
  unfold dict_keys. induction d as [|[k0 v0] d IH]; csimpl; [done |].
  destruct (decide (k0 = k)) as [->|Hne]; csimpl.
  - rewrite bool_decide_eq_true_2; [done | left].
  - rewrite IH. destruct (bool_decide_reflect (k ∈ d.*1)) as [Hin|Hnin].
    + rewrite bool_decide_eq_true_2; [done | by right].
    + rewrite bool_decide_eq_false_2; [done |].
      rewrite elem_of_cons. intros [?|?]; congruence.
Qed.

Lemma dict_set_NoDup d k v : NoDup (dict_keys d) → NoDup (dict_keys (dict_set d k v)).
Proof.
  intros Hnd. rewrite dict_keys_set.
  destruct (bool_decide_reflect (k ∈ dict_keys d)) as [Hin|Hnin]; [done |].
  apply NoDup_app. split; [done |]. split; [| apply NoDup_singleton].
  intros x Hx Hx'. apply list_elem_of_singleton in Hx'. by subst.
Qed.

Lemma dict_of_pairs_NoDup (l : list (K * V)) : NoDup (dict_keys (dict_of_pairs l)).
Proof.
  unfold dict_of_pairs.
  assert (∀ d0, NoDup (dict_keys d0) →
    NoDup (dict_keys (foldl (λ d kv, dict_set d kv.1 kv.2) d0 l))) as Hgen.
  { induction l as [|[k v] l IH]; intros d0 Hd0; csimpl; [done |].
    apply IH. by apply dict_set_NoDup. }
  apply Hgen. constructor.
Qed.

Lemma dict_get_Some_NoDup d k v :
  NoDup (dict_keys d) → (k, v) ∈ d → dict_get d k = Some v.
Proof.
  unfold dict_keys. induction d as [|[k' v'] d IH]; csimpl.
  - intros _ Hin. by apply elem_of_nil in Hin.
  - rewrite NoDup_cons. intros [Hnin Hnd] Hin.
    apply elem_of_cons in Hin as [[= -> ->]|Hin].
    + by rewrite decide_True.
    + rewrite decide_False; [by apply IH |].
      intros ->. apply Hnin. apply list_elem_of_fmap. by exists (k, v).
Qed.
End DictFacts.

(** Every loaded corpus has pairwise distinct tokens. *)
Lemma init_tokens_NoDup doc : NoDup (scene_tokens (init doc)).
Proof. apply dict_of_pairs_NoDup. Qed.

(** ** Statistics *)

Lemma counter_incr_sum {K} `{EqDecision K} (c : list (K * nat)) (key : K) :
  sum_list (dict_values (counter_incr c key)) = S (sum_list (dict_values c)).
Proof.
  unfold counter_incr, dict_values.
  induction c as [|[k n] c IH]; csimpl; [done |].
  case_decide as Hk; csimpl; [lia |]. rewrite IH. lia.
Qed.

Lemma counter_incr_weighted (h : list (nat * nat)) (key : nat) :
  weighted_sum (counter_incr h key) = weighted_sum h + key.
Proof.
  unfold counter_incr, weighted_sum.
  induction h as [|[k n] h IH]; csimpl; [lia |].
  case_decide as Hk; csimpl; [subst; lia |]. rewrite IH. lia.
Qed.

Lemma counter_incr_NoDup {K} `{EqDecision K} (c : list (K * nat)) (key : K) :
  NoDup (dict_keys c) → NoDup (dict_keys (counter_incr c key)).
Proof. apply dict_set_NoDup. Qed.

Lemma count_labels_sum (ls : list string) (c : list (string * nat)) :
  sum_list (dict_values (foldl counter_incr c ls))
  = sum_list (dict_values c) + length ls.
Proof.
  revert c. induction ls as [|l ls IH]; intros c; simpl; [lia |].
  rewrite IH, counter_incr_sum. lia.
Qed.

Lemma count_labels_NoDup (ls : list string) (c : list (string * nat)) :
  NoDup (dict_keys c) → NoDup (dict_keys (foldl counter_incr c ls)).
Proof.
  revert c. induction ls as [|l ls IH]; intros c Hc; simpl; [done |].
  apply IH. by apply counter_incr_NoDup.
Qed.

Lemma label_counts_fold (ds : list SceneRecord) (c : list (string * nat)) :
  NoDup (dict_keys c) →
  let c' := foldl (λ lc d, foldl counter_incr lc (labels d)) c ds in
  NoDup (dict_keys c')
  ∧ sum_list (dict_values c')
    = sum_list (dict_values c) + sum_list (map (λ d, length (labels d)) ds).
Proof.
  revert c. induction ds as [|d ds IH]; intros c Hc; simpl; [split; [done | lia] |].
  destruct (IH (foldl counter_incr c (labels d))) as [Hnd Hsum].
  { by apply count_labels_NoDup. }
  split; [done |]. rewrite Hsum, count_labels_sum. lia.
Qed.

Lemma histogram_fold (ds : list SceneRecord) (h : list (nat * nat)) :
  weighted_sum (foldl (λ mc d, counter_incr mc (length (labels d))) h ds)
  = weighted_sum h + sum_list (map (λ d, length (labels d)) ds).
Proof.
  revert h. induction ds as [|d ds IH]; intros h; simpl; [lia |].
  rewrite IH, counter_incr_weighted. lia.
Qed.

(** C8: the occurrence counts of [get_label_statistics], one per distinct
    label and with no label validation, add up to the total number of
    labels over all records, and so does the histogram of
    [get_multi_label_statistics] when each bucket is weighted by its
    number of labels. *)
Theorem label_statistics_consistent (doc : list (string * SceneRecord)) :
  let self := init doc in
  let total := sum_list (map (λ d, length (labels d)) (dict_values (data self))) in
  NoDup (dict_keys (get_label_statistics self))
  ∧ sum_list (dict_values (get_label_statistics self)) = total
  ∧ weighted_sum (get_multi_label_statistics self) = total.
Proof.
  intros self total. subst total.
  unfold get_label_statistics, get_multi_label_statistics.
  destruct (label_counts_fold (dict_values (data self)) []) as [Hnd Hsum];
    [constructor |].
  split; [done |]. split; [by rewrite Hsum | by rewrite histogram_fold].
Qed.

(** ** Label queries *)

(** A loop that appends the selected items to an accumulator is a filter. *)
Lemma foldl_select {A} (P : A → Prop) `{!∀ x, Decision (P x)}
    (step : list A → A → list A) :
  (∀ acc x, step acc x = if bool_decide (P x) then acc ++ [x] else acc) →
  ∀ l acc, foldl step acc l = acc ++ filter P l.
Proof.
  intros Hstep. induction l as [|x l IH]; intros acc; simpl.
  - by rewrite app_nil_r.
  - rewrite IH, Hstep, filter_cons.
    destruct (bool_decide_reflect (P x)) as [HP|HP].
    + rewrite decide_True by done. by rewrite <- app_assoc.
    + by rewrite decide_False by done.
Qed.

Lemma filter_all {A} (P : A → Prop) `{!∀ x, Decision (P x)} (l : list A) :
  (∀ x, P x) → filter P l = l.
Proof.
  intros HP. induction l as [|x l IH]; [done |].
  by rewrite filter_cons_True, IH.
Qed.

Lemma filter_none {A} (P : A → Prop) `{!∀ x, Decision (P x)} (l : list A) :
  (∀ x, ¬ P x) → filter P l = [].
Proof.
  intros HP. induction l as [|x l IH]; [done |].
  by rewrite filter_cons_False.
Qed.

Lemma check_labels_valid (ls : list string) :
  Forall (.∈ ALL_SCENES) ls → check_labels ls = Ok ().
Proof.
  induction 1 as [|l ls Hl _ IH]; simpl; [done |].
  by rewrite bool_decide_eq_false_2 by (by intros ?).
Qed.

Lemma set_intersects (a b : list string) :
  (list_to_set a ∩ list_to_set b : gset string) ≠ ∅ ↔ intersects a b.
Proof.
  unfold intersects. rewrite Exists_exists. split.
  - intros Hne. apply set_choose_L in Hne as [x Hx].
    exists x. set_solver.
  - intros (x & Ha & Hb). set_solver.
Qed.

Lemma set_superset (a b : list string) :
  (list_to_set b : gset string) ⊆ list_to_set a ↔ superset_of a b.
Proof. unfold superset_of. rewrite Forall_forall. set_solver. Qed.

(** C4: [get_scenes_by_label] raises the invalid-label [ValueError], whose
    message names the label and the ten valid labels, exactly when the
    label is outside [ALL_SCENES]; otherwise it returns the (token, record)
    pairs whose labels contain it, in corpus order. *)
Theorem get_scenes_by_label_spec (doc : list (string * SceneRecord))
    (label : string) :
  let self := init doc in
  (label ∉ ALL_SCENES →
     get_scenes_by_label self label
     = Raise (ValueError ("Invalid label: " +:+ label +:+ ". Must be one of ['PED_CROSSING', 'LEFT_TURN', 'RIGHT_TURN', 'CONSTRUCTION_VEHICLE', 'AVOID_STATIONARY', 'INTERSECTION', 'PARKING_LOT', 'TRAFFIC_LIGHT', 'RAINY_WEATHER', 'CONSTRUCTION_ZONE']")))
  ∧ (label ∈ ALL_SCENES →
     get_scenes_by_label self label
     = Ok (filter (λ p, label ∈ labels p.2) (dict_items (data self))))
  ∧ ((∃ e, get_scenes_by_label self label = Raise e) ↔ label ∉ ALL_SCENES).
Proof.
  intros self. unfold get_scenes_by_label.
  destruct (bool_decide_reflect (label ∉ ALL_SCENES)) as [Hout|Hin].
  - split; [done |]. split; [done |]. split; [done | eauto].
  - apply dec_stable in Hin.
    split; [done |]. split.
    + intros _. f_equal.
      rewrite (foldl_select (λ p, label ∈ labels p.2)); [done |].
      by intros acc [token d].
    + split; [by intros [e ?] | done].
Qed.

(** C3: for valid labels, mode "any" returns the records whose labels
    intersect the query and mode "all" those whose labels include the whole
    query, both in corpus order; the empty query matches every record under
    "all" and none under "any". *)
Theorem get_scenes_by_labels_spec (doc : list (string * SceneRecord))
    (ls : list string) :
  Forall (.∈ ALL_SCENES) ls →
  let self := init doc in
  get_scenes_by_labels self ls "any"
  = Ok (filter (λ p, intersects (labels p.2) ls) (dict_items (data self)))
  ∧ get_scenes_by_labels self ls "all"
    = Ok (filter (λ p, superset_of (labels p.2) ls) (dict_items (data self)))
  ∧ get_scenes_by_labels self [] "all" = Ok (dict_items (data self))
  ∧ get_scenes_by_labels self [] "any" = Ok [].
Proof.
  intros Hvalid self.
  assert (∀ ls', Forall (.∈ ALL_SCENES) ls' →
    get_scenes_by_labels self ls' "any"
    = Ok (filter (λ p, intersects (labels p.2) ls') (dict_items (data self)))
    ∧ get_scenes_by_labels self ls' "all"
      = Ok (filter (λ p, superset_of (labels p.2) ls') (dict_items (data self))))
    as Hboth.
  { clear ls Hvalid. intros ls Hvalid. unfold get_scenes_by_labels.
    rewrite (check_labels_valid ls Hvalid). split; f_equal.
    - rewrite (foldl_select (λ p, intersects (labels p.2) ls)); [done |].
      intros acc [token d]; simpl.
      rewrite (bool_decide_ext _ _ (set_intersects (labels d) ls)).
      by destruct (bool_decide (intersects (labels d) ls)).
    - rewrite (foldl_select (λ p, superset_of (labels p.2) ls)); [done |].
      intros acc [token d]; simpl.
      rewrite (bool_decide_ext _ _ (set_superset (labels d) ls)).
      by destruct (bool_decide (superset_of (labels d) ls)). }
  destruct (Hboth ls Hvalid) as [Hany Hall].
  destruct (Hboth [] (Forall_nil_2 _)) as [Hany0 Hall0].
  split; [done |]. split; [done |]. split.
  - rewrite Hall0. f_equal. apply filter_all. intros p. constructor.
  - rewrite Hany0. f_equal. apply filter_none.
    intros p Hp. unfold intersects in Hp. apply Exists_exists in Hp as (x & _ & Hx).
    by apply elem_of_nil in Hx.
Qed.

Lemma get_scenes_by_labels_spec_witness :
  get_scenes_by_labels (init corpus_ab) ["INTERSECTION"; "PED_CROSSING"] "any"
  = Ok (filter (λ p, intersects (labels p.2) ["INTERSECTION"; "PED_CROSSING"])
               (dict_items (data (init corpus_ab)))).
Proof.
  apply (get_scenes_by_labels_spec corpus_ab ["INTERSECTION"; "PED_CROSSING"]).
  repeat constructor; vm_compute; tauto.
Defined.

(** C10: a mode string other than "any" and "all" is not rejected: with
    valid labels the query returns the empty list. *)
Theorem get_scenes_by_labels_other_mode (doc : list (string * SceneRecord))
    (ls : list string) (mode : string) :
  Forall (.∈ ALL_SCENES) ls → mode ≠ "any" → mode ≠ "all" →
  get_scenes_by_labels (init doc) ls mode = Ok [].
Proof.
  intros Hvalid Hany Hall. unfold get_scenes_by_labels.
  rewrite (check_labels_valid ls Hvalid). f_equal.
  rewrite (foldl_select (λ _, False)).
  - rewrite filter_none; [done | tauto].
  - intros acc [token d].
    by rewrite (bool_decide_eq_false_2 (mode = "any")),
               (bool_decide_eq_false_2 (mode = "all")) by done.
Qed.

Lemma get_scenes_by_labels_other_mode_witness :
  get_scenes_by_labels (init corpus_ab) ["INTERSECTION"; "TRAFFIC_LIGHT"] "ALL"
  = Ok [].
Proof.
  apply get_scenes_by_labels_other_mode.
  - repeat constructor; vm_compute; tauto.
  - discriminate.
  - discriminate.
Defined.

(** ** Export *)

Lemma dict_set_same {K V} `{EqDecision K} (d : list (K * V)) k v :
  dict_get d k = Some v → dict_set d k v = d.
Proof.
  induction d as [|[k' v'] d IH]; simpl; [done |].
  case_decide as Hk; [by intros [= ->] | intros Hd; by rewrite IH].
Qed.

Lemma dict_set_fresh {K V} `{EqDecision K} (d : list (K * V)) k v :
  dict_get d k = None → dict_set d k v = d ++ [(k, v)].
Proof.
  induction d as [|[k' v'] d IH]; simpl; [done |].
  case_decide as Hk; [done | intros Hd; by rewrite IH].
Qed.

Lemma first_occurrences_snoc (l : list string) (x : string) :
  first_occurrences (l ++ [x])
  = if bool_decide (x ∈ first_occurrences l) then first_occurrences l
    else first_occurrences l ++ [x].
Proof. unfold first_occurrences. by rewrite foldl_snoc. Qed.

Lemma elem_of_first_occurrences (l : list string) (x : string) :
  x ∈ first_occurrences l ↔ x ∈ l.
Proof.
  induction l as [|y l IH] using rev_ind.
  - done.
  - rewrite first_occurrences_snoc, elem_of_app, list_elem_of_singleton.
    destruct (bool_decide_reflect (y ∈ first_occurrences l)) as [Hy|Hy].
    + rewrite IH. split; [tauto |]. intros [?| ->]; [done | by apply IH].
    + by rewrite elem_of_app, list_elem_of_singleton, IH.
Qed.

Lemma first_occurrences_NoDup (l : list string) : NoDup (first_occurrences l).
Proof.
  induction l as [|y l IH] using rev_ind; [constructor |].
  rewrite first_occurrences_snoc.
  destruct (bool_decide_reflect (y ∈ first_occurrences l)) as [Hy|Hy]; [done |].
  apply NoDup_app. split; [done |]. split; [| apply NoDup_singleton].
  intros x Hx Hx'. apply list_elem_of_singleton in Hx'. by subst.
Qed.

Lemma first_occurrences_id (l : list string) : NoDup l → first_occurrences l = l.
Proof.
  induction l as [|y l IH] using rev_ind; [done |].
  rewrite NoDup_app. intros (Hl & Hy & _).
  rewrite first_occurrences_snoc, (IH Hl).
  rewrite bool_decide_eq_false_2; [done |].
  intros Hin. apply (Hy y Hin). apply list_elem_of_singleton. done.
Qed.

Lemma dict_get_entries (self : NuScenesSRDataloader) (l : list string) t :
  dict_get (omap (export_entry self) l) t
  = if bool_decide (t ∈ l) then labels <$> dict_get (data self) t else None.
Proof.
  induction l as [|x l IH]; [done |]. csimpl.
  unfold export_entry at 1.
  destruct (decide (x = t)) as [->|Hne].
  - rewrite bool_decide_eq_true_2 by left.
    destruct (dict_get (data self) t) as [d|] eqn:Hd; csimpl.
    + by rewrite decide_True.
    + rewrite IH. by destruct (bool_decide (t ∈ l)); rewrite ?Hd.
  - rewrite (bool_decide_ext (t ∈ x :: l) (t ∈ l)).
    2:{ rewrite elem_of_cons. split; [intros [?|?]; [congruence | done] | eauto]. }
    destruct (dict_get (data self) x) as [d|]; csimpl; [| done].
    by rewrite decide_False.
Qed.

Lemma entries_keys (self : NuScenesSRDataloader) (l : list string) :
  dict_keys (omap (export_entry self) l)
  = filter (λ t, t ∈ dict_keys (data self)) l.
Proof.
  unfold dict_keys at 1. induction l as [|x l IH]; [done |]. csimpl.
  rewrite filter_cons, <- IH. unfold export_entry at 1.
  destruct (dict_get (data self) x) as [d|] eqn:Hd; csimpl.
  - rewrite decide_True; [done |].
    apply (dict_get_is_Some (data self)). by rewrite Hd.
  - rewrite decide_False; [done |]. by apply (dict_get_None (data self)).
Qed.

Lemma labels_only_of_closed (self : NuScenesSRDataloader) (tokens : list string) :
  labels_only_of self tokens
  = omap (export_entry self) (first_occurrences tokens).
Proof.
  unfold labels_only_of.
  induction tokens as [|t tokens IH] using rev_ind; [done |].
  rewrite foldl_snoc, IH, first_occurrences_snoc. clear IH.
  destruct (dict_get (data self) t) as [d|] eqn:Hd.
  - destruct (bool_decide_reflect (t ∈ first_occurrences tokens)) as [Hin|Hnin].
    + apply dict_set_same. rewrite dict_get_entries, bool_decide_eq_true_2 by done.
      by rewrite Hd.
    + rewrite dict_set_fresh.
      * rewrite omap_app. csimpl. unfold export_entry at 3. by rewrite Hd.
      * by rewrite dict_get_entries, bool_decide_eq_false_2.
  - destruct (bool_decide (t ∈ first_occurrences tokens)); [done |].
    rewrite omap_app. csimpl. unfold export_entry at 3. rewrite Hd. csimpl.
    by rewrite app_nil_r.
Qed.

Lemma entries_of_items (self : NuScenesSRDataloader)
    (l : list (string * SceneRecord)) :
  (∀ p, p ∈ l → dict_get (data self) p.1 = Some p.2) →
  omap (export_entry self) l.*1 = (λ p, (p.1, labels p.2)) <$> l.
Proof.
  induction l as [|[t d] l IH]; intros Hget; [done |]. csimpl.
  pose proof (Hget (t, d) ltac:(left)) as Ht. simpl in Ht.
  unfold export_entry at 1. rewrite Ht. csimpl.
  rewrite IH; [done |]. intros p Hp. apply Hget. by right.
Qed.

(** C9: the exported document holds, in the order of first request, one
    entry for each requested token that the corpus has, mapped to that
    record's labels; requested tokens that the corpus lacks are skipped.
    Reading the document back gives, for every exported token, exactly the
    labels of its record. With no token list given, every record of the
    corpus is exported, in corpus order. *)
Theorem export_labels_only_spec (doc : list (string * SceneRecord))
    (output_path : string) (tokens : list string)
    (store : gmap string (list (string * list string))) :
  let self := init doc in
  let store' := export_labels_only self output_path (Some tokens) store in
  ∃ out,
    reload_labels store' output_path = Some out
    ∧ out = omap (export_entry self) (first_occurrences tokens)
    ∧ dict_keys out
      = filter (λ t, t ∈ scene_tokens self) (first_occurrences tokens)
    ∧ (∀ t, dict_get out t
            = if bool_decide (t ∈ tokens)
              then labels <$> get_scene_data self t else None)
    ∧ (∀ t d, t ∈ tokens → get_scene_data self t = Some d →
              dict_get out t = Some (labels d))
    ∧ reload_labels (export_labels_only self output_path None store) output_path
      = Some ((λ p, (p.1, labels p.2)) <$> dict_items (data self)).
Proof.
  intros self store'. exists (labels_only_of self tokens).
  assert (∀ t, dict_get (labels_only_of self tokens) t
            = if bool_decide (t ∈ tokens)
              then labels <$> get_scene_data self t else None) as Hget.
  { intros t. rewrite labels_only_of_closed, dict_get_entries.
    by rewrite (bool_decide_ext _ _ (elem_of_first_occurrences tokens t)). }
  split; [apply lookup_insert_eq |].
  split; [apply labels_only_of_closed |].
  split; [| split; [done |]; split].
  - rewrite labels_only_of_closed. apply entries_keys.
  - intros t d Hin Hd. by rewrite Hget, bool_decide_eq_true_2, Hd.
  - unfold reload_labels, export_labels_only. rewrite lookup_insert_eq. f_equal.
    simpl. rewrite labels_only_of_closed.
    rewrite first_occurrences_id by apply init_tokens_NoDup.
    apply entries_of_items. intros [t d] Hp.
    apply dict_get_Some_NoDup; [apply init_tokens_NoDup | done].
Qed.

(** ** The counter generator satisfies the contract of [random] *)

Lemma counter_randbelow_lt (st n : nat) : 0 < n → (counter_randbelow st n).1 < n.
Proof. intros Hn. simpl. apply Nat.mod_upper_bound. lia. Qed.

Lemma counter_reject_loop_hit (n : nat) (selected : gset nat) (k st : nat) :
  (st + k) mod n ∉ selected →
  is_Some (reject_loop counter_randbelow (S k) st n selected).
Proof.
  revert st. induction k as [|k IH]; intros st Hfresh.
  - rewrite Nat.add_0_r in Hfresh. simpl.
    by rewrite bool_decide_eq_false_2.
  - cbn [reject_loop counter_randbelow].
    destruct (bool_decide (st mod n ∈ selected)); [| done].
    apply IH. by replace (S st + k) with (st + S k) by lia.
Qed.

Lemma counter_randbelow_fresh (st n : nat) (selected : gset nat) :
  (∃ j, j < n ∧ j ∉ selected) →
  ∃ fuel, is_Some (reject_loop counter_randbelow fuel st n selected).
Proof.
  intros (j & Hj & Hfresh).
  exists (S (j + (n - st mod n))). apply counter_reject_loop_hit.
  assert (st mod n < n) by (apply Nat.mod_upper_bound; lia).
  replace (st + (j + (n - st mod n))) with (j + (st / n + 1) * n).
  - by rewrite Nat.Div0.mod_add, Nat.mod_small.
  - pose proof (Nat.div_mod_eq st n). lia.
Qed.

Definition counter_rng : RandomSource :=
  {| rng_state := nat;
     rng_seed := Z.abs_nat;
     randbelow := counter_randbelow;
     ceil_log4 := counter_ceil_log4;
     randbelow_lt := counter_randbelow_lt;
     randbelow_fresh := counter_randbelow_fresh |}.

(** ** Shuffling *)

Section ShuffleFacts.
Context `{RandomSource}.

Lemma swap_Some {A} (x : list A) (i j : nat) :
  i < length x → j < length x →
  ∃ x', swap x i j = Some x' ∧ x' ≡ₚ x.
Proof.
  intros Hi Hj. unfold swap.
  destruct (lookup_lt_is_Some_2 x i Hi) as [xi Hxi].
  destruct (lookup_lt_is_Some_2 x j Hj) as [xj Hxj].
  rewrite Hxi, Hxj. eexists. split; [done |].
  by apply Permutation_insert_swap.
Qed.

Lemma shuffle_loop_perm {A} (i : nat) (x : list A) (st : rng_state) :
  i < length x ∨ i = 0 →
  ∃ x' st', shuffle_loop i x st = (Ok x', st') ∧ x' ≡ₚ x.
Proof.
  revert x st. induction i as [|i IH]; intros x st Hi.
  - by exists x, st.
  - destruct Hi as [Hi|?]; [| done]. cbn [shuffle_loop].
    pose proof (randbelow_lt st (S i + 1) ltac:(lia)) as Hj.
    destruct (randbelow st (S i + 1)) as [j st1]. simpl in Hj.
    destruct (swap_Some x (S i) j) as (x1 & -> & Hperm); [lia | lia |].
    destruct (IH x1 st1) as (x' & st' & Hloop & Hperm').
    { left. rewrite (Permutation_length Hperm). lia. }
    exists x', st'. split; [done |]. by rewrite Hperm'.
Qed.

(** [random.shuffle] returns a permutation of its argument. *)
Lemma shuffle_perm {A} (x : list A) (st : rng_state) :
  ∃ x' st', shuffle x st = (Ok x', st') ∧ x' ≡ₚ x.
Proof.
  apply shuffle_loop_perm. destruct x; simpl; [by right | left; lia].
Qed.
End ShuffleFacts.

(** ** Slices *)

Lemma take_min {A} (s : list A) (n : nat) : take (n `min` length s) s = take n s.
Proof.
  destruct (Nat.min_spec n (length s)) as [[_ ->]|[Hle ->]]; [done |].
  by rewrite !take_ge by lia.
Qed.

Lemma drop_min {A} (s : list A) (n : nat) : drop (n `min` length s) s = drop n s.
Proof.
  destruct (Nat.min_spec n (length s)) as [[_ ->]|[Hle ->]]; [done |].
  by rewrite !drop_ge by lia.
Qed.

(** With non-negative cuts, the three Python slices of [split_dataset] are
    the intervals [[0,a)], [[a,a+c)] and [[a+c,len)]. *)
Lemma py_slices_intervals {A} (s : list A) (a c : Z) :
  (0 ≤ a)%Z → (0 ≤ c)%Z →
  py_slice s None (Some a) = interval s 0 a
  ∧ py_slice s (Some a) (Some (a + c)%Z) = interval s a (a + c)
  ∧ py_slice s (Some (a + c)%Z) None = interval s (a + c) (Z.of_nat (length s)).
Proof.
  intros Ha Hc. unfold py_slice, interval, slice_index; simpl.
  rewrite !(proj2 (Z.ltb_ge _ 0)) by lia.
  replace (Z.to_nat (Z.min a (Z.of_nat (length s))))
    with (Z.to_nat a `min` length s) by lia.
  replace (Z.to_nat (Z.min (a + c) (Z.of_nat (length s))))
    with (Z.to_nat (a + c) `min` length s) by lia.
  rewrite Nat2Z.id.
  set (n := Z.to_nat a). set (m := Z.to_nat (a + c)).
  assert (n ≤ m) as Hnm by lia. clearbody n m.
  split; [| split].
  - by rewrite Nat.sub_0_r, take_min.
  - rewrite take_drop_commute.
    replace (n `min` length s + (m `min` length s - n `min` length s))
      with (m `min` length s) by lia.
    rewrite take_min.
    destruct (Nat.min_spec n (length s)) as [[_ ->]|[Hle ->]]; [done |].
    rewrite !drop_ge; [done | |]; rewrite length_take; lia.
  - rewrite (take_ge s (length s)) by lia. rewrite drop_min.
    apply take_ge. rewrite length_drop. lia.
Qed.

Lemma intervals_cover {A} (s : list A) (a c : Z) :
  (0 ≤ a)%Z → (0 ≤ c)%Z →
  interval s 0 a ++ interval s a (a + c)
    ++ interval s (a + c) (Z.of_nat (length s)) = s.
Proof.
  intros Ha Hc. unfold interval. rewrite Nat2Z.id; simpl.
  rewrite (take_ge s (length s)) by lia.
  rewrite drop_take_drop by lia.
  apply take_drop.
Qed.

Lemma partition_of_split (tokens s train val test : list string) :
  NoDup tokens → s ≡ₚ tokens → train ++ val ++ test = s →
  is_partition_of tokens train val test.
Proof.
  intros Hnd Hperm Hs.
  assert (NoDup (train ++ val ++ test)) as Hnd'.
  { rewrite Hs. by rewrite Hperm. }
  apply NoDup_app in Hnd' as (_ & Hd1 & Hnd').
  apply NoDup_app in Hnd' as (_ & Hd2 & _).
  unfold is_partition_of. repeat split.
  - intros x Hx Hv. apply (Hd1 x Hx). apply elem_of_app. by left.
  - intros x Hx Hv. apply (Hd1 x Hx). apply elem_of_app. by right.
  - done.
  - rewrite Hs. by rewrite Hperm.
  - rewrite Hs. by rewrite Hperm.
  - rewrite <- (Permutation_length Hperm), <- Hs, !length_app. lia.
  - by rewrite Hs.
Qed.

(** ** Floating point *)

(** The constants are the binary64 values nearest to the decimal literals:
    each is the correctly rounded quotient of two integers that binary64
    holds exactly. *)
Lemma float_literals :
  let q (a b : Z) :=
    SFdiv 53 1024 (binary_normalize 53 1024 a 0 false)
                  (binary_normalize 53 1024 b 0 false) in
  (q 1 1 = f_one ∧ q 1 1000000 = f_1em6 ∧ q 1 2 = f_half
   ∧ q (-1) 2 = f_neg_half ∧ q 8 10 = f_0_8 ∧ q 1 10 = f_0_1
   ∧ q 3 10 = f_0_3)%Z.
Proof. repeat split; reflexivity. Qed.

Lemma float_literals_valid :
  Forall (λ x, valid_binary 53 1024 x = true)
         [f_one; f_1em6; f_zero; f_half; f_neg_half; f_0_8; f_0_1; f_0_3].
Proof. repeat constructor. Qed.

(** A rounded result carries the sign it was given. *)
Lemma binary_round_aux_sign (sx : bool) (mx ex : Z) (lx : location) :
  match binary_round_aux 53 1024 sx mx ex lx with
  | S754_zero s | S754_infinity s | S754_finite s _ _ => s = sx
  | S754_nan => True
  end.
Proof.
  unfold binary_round_aux.
  destruct (shr_fexp 53 1024 mx ex lx) as [mrs' e'].
  destruct (shr_fexp 53 1024 _ e' loc_Exact) as [mrs'' e''].
  destruct (shr_m mrs''); [done | | done].
  by destruct (e'' <=? 1024 - 53)%Z.
Qed.

(** The float of a list length is not negative. *)
Lemma float_of_int_sign (n : nat) (t : float) :
  float_of_int (Z.of_nat n) = Ok t →
  match t with
  | S754_zero s | S754_infinity s | S754_finite s _ _ => s = false
  | S754_nan => True
  end.
Proof.
  unfold float_of_int, binary_normalize.
  destruct (Z.of_nat n) as [|m|m] eqn:Hn; [by intros [= <-] | | lia].
  unfold binary_round.
  destruct (shl_align m 0 _) as [mz ez].
  pose proof (binary_round_aux_sign false (Z.pos mz) ez loc_Exact) as Hs.
  destruct (binary_round_aux 53 1024 false (Z.pos mz) ez loc_Exact);
    intros [= <-]; done.
Qed.

(** On a float that is not negative, [int] is the floor. *)
Lemma int_of_float_floor (x : float) (a : Z) :
  float_floor x = Some a → (0 ≤ a)%Z → int_of_float x = Ok a.
Proof.
  destruct x as [s|s| |s m e]; simpl; try done; [by intros [= <-] |].
  destruct (Z.ltb_spec e 0) as [He|He]; intros [= <-] Hnn; f_equal;
    destruct s; simpl in *.
  - exfalso.
    assert (Z.neg m / 2 ^ (- e) < 0)%Z; [| lia].
    apply Z.div_lt_upper_bound; [apply Z.pow_pos_nonneg; lia | lia].
  - apply Z.shiftr_div_pow2. lia.
  - exfalso. assert (0 < 2 ^ e)%Z by (apply Z.pow_pos_nonneg; lia). nia.
  - apply Z.shiftl_mul_pow2. lia.
Qed.

Lemma floor_cut_split_point (total : nat) (ratio : float) (a : Z) :
  floor_cut total ratio = Some a → (0 ≤ a)%Z → split_point total ratio = Ok a.
Proof.
  unfold floor_cut, split_point.
  destruct (float_of_int (Z.of_nat total)) as [t|]; [| done].
  apply int_of_float_floor.
Qed.

(** The conversions raise errors of their own, not the ratio error. *)
Lemma split_point_error (total : nat) (ratio : float) (e : exn) :
  split_point total ratio = Raise e → e ≠ ValueError "Ratios must sum to 1.0".
Proof.
  unfold split_point, float_of_int.
  destruct (binary_normalize 53 1024 _ 0 false);
    try (by intros [= <-]); by destruct (fmul _ ratio); intros [= <-].
Qed.

(** A ratio that is not negative gives a cut that is not negative, and the
    truncation of [split_point] is then the floor. *)
Lemma nonneg_ratio_floor_cut (total : nat) (ratio : float) (a : Z) :
  fle f_zero ratio = true → split_point total ratio = Ok a →
  (0 ≤ a)%Z ∧ floor_cut total ratio = Some a.
Proof.
  unfold floor_cut, split_point. intros Hr.
  destruct (float_of_int (Z.of_nat total)) as [t|] eqn:Ht; [| done].
  apply float_of_int_sign in Ht.
  assert (match fmul t ratio with
          | S754_finite s _ _ => s = false
          | _ => True
          end) as Hsign.
  { destruct t as [st|st| |st mt et], ratio as [sr|sr| |sr mr er];
      simpl in *; try done; subst.
    destruct sr; [done |].
    pose proof (binary_round_aux_sign (xorb false false)
                  (Z.pos (mt * mr)) (et + er) loc_Exact) as Hs.
    by destruct (binary_round_aux 53 1024 _ _ _ _). }
  destruct (fmul t ratio) as [s|s| |s m e]; simpl; try done.
  - intros [= <-]. done.
  - subst s. intros [= <-]. simpl. split.
    + destruct (e <? 0)%Z; [apply Z.shiftr_nonneg | apply Z.shiftl_nonneg]; lia.
    + f_equal. destruct (Z.ltb_spec e 0).
      * symmetry. apply Z.shiftr_div_pow2. lia.
      * symmetry. apply Z.shiftl_mul_pow2. lia.
Qed.

(** ** Rounding never overflows on the products of a split

    The digit counts of [SpecFloat] are binary logarithms, a right shift
    drops digits, and rounding to nearest adds at most one. This bounds the
    exponent that [binary_round_aux] returns. *)

Section RoundingFacts.
Local Open Scope Z_scope.

Lemma Zdigits2_log2 (m : positive) : Zdigits2 (Z.pos m) = Z.log2 (Z.pos m) + 1.
Proof.
  assert (∀ p, Z.pos (digits2_pos p) = Z.pos (Pos.size p)) as Hsize.
  { induction p as [p IH|p IH|]; simpl; [| | done];
      rewrite !Pos2Z.inj_succ; lia. }
  destruct m as [p|p|]; simpl; [| | done];
    rewrite Pos2Z.inj_succ, Hsize; lia.
Qed.

Lemma Zdigits2_shiftr (m n : Z) :
  0 ≤ m → 0 ≤ n → Zdigits2 (Z.shiftr m n) ≤ Z.max 0 (Zdigits2 m - n).
Proof.
  intros Hm Hn. destruct m as [|p|p]; [| | lia].
  - rewrite Z.shiftr_0_l. simpl. lia.
  - pose proof (Z.shiftr_nonneg (Z.pos p) n) as Hnn.
    destruct (Z.shiftr (Z.pos p) n) as [|q|q] eqn:Hq; [simpl; lia | | lia].
    rewrite !Zdigits2_log2, <- Hq, Z.log2_shiftr by lia.
    assert (0 < Z.log2 (Z.pos p) - n ∨ Z.log2 (Z.pos p) - n ≤ 0) as [?|Hle] by lia; [lia |].
    (* shifted value positive, so log2 p >= n *)
    assert (n ≤ Z.log2 (Z.pos p)); [| lia].
    destruct (Z.le_gt_cases n (Z.log2 (Z.pos p))) as [?|Hgt]; [done |].
    exfalso. rewrite Z.shiftr_eq_0 in Hq by lia. done.
Qed.

Lemma Zdigits2_succ (m : Z) : 0 ≤ m → Zdigits2 (m + 1) ≤ Zdigits2 m + 1.
Proof.
  intros Hm. destruct m as [|p|p]; [simpl; lia | | lia].
  replace (Z.pos p + 1) with (Z.pos (p + 1)) by lia.
  rewrite !Zdigits2_log2. replace (Z.pos (p + 1)) with (Z.succ (Z.pos p)) by lia.
  pose proof (Z.log2_succ_le (Z.pos p)). lia.
Qed.

Lemma Zdigits2_mul (a b : positive) :
  Zdigits2 (Z.pos (a * b)) ≤ Zdigits2 (Z.pos a) + Zdigits2 (Z.pos b).
Proof.
  rewrite !Zdigits2_log2, Pos2Z.inj_mul.
  pose proof (Z.log2_mul_above (Z.pos a) (Z.pos b)). lia.
Qed.

Lemma shr_1_m (s : shr_record) : 0 ≤ shr_m s → shr_m (shr_1 s) = Z.shiftr (shr_m s) 1.
Proof.
  destruct s as [m r t]. simpl. intros Hm.
  rewrite <- Z.div2_spec. by destruct m as [|[p|p|]|].
Qed.

Lemma iter_shr_1_m (p : positive) (s : shr_record) :
  0 ≤ shr_m s → shr_m (SpecFloat.iter_pos shr_1 p s) = Z.shiftr (shr_m s) (Z.pos p).
Proof.
  revert s. induction p as [p IH|p IH|]; intros s Hm; simpl.
  - assert (0 ≤ shr_m (shr_1 s)) by (rewrite shr_1_m by done; by apply Z.shiftr_nonneg).
    rewrite IH, IH, shr_1_m, !Z.shiftr_shiftr by (try rewrite IH; try apply Z.shiftr_nonneg; lia).
    f_equal. lia.
  - rewrite IH, IH, !Z.shiftr_shiftr by (try rewrite IH; try apply Z.shiftr_nonneg; lia).
    f_equal. lia.
  - by apply shr_1_m.
Qed.

Lemma shr_record_of_loc_m (m : Z) (l : location) : shr_m (shr_record_of_loc m l) = m.
Proof. by destruct l as [|[]]. Qed.

Lemma shr_fexp_bound (m e : Z) (l : location) :
  0 ≤ m →
  let '(mrs, e') := shr_fexp 53 1024 m e l in
  0 ≤ shr_m mrs
  ∧ e' = Z.max e (fexp 53 1024 (Zdigits2 m + e))
  ∧ Zdigits2 (shr_m mrs) + e' ≤ Z.max e' (Zdigits2 m + e).
Proof.
  intros Hm. unfold shr_fexp, shr.
  destruct (fexp 53 1024 (Zdigits2 m + e) - e) as [|p|p] eqn:Hn.
  - rewrite shr_record_of_loc_m. lia.
  - rewrite iter_shr_1_m, shr_record_of_loc_m by (by rewrite shr_record_of_loc_m).
    pose proof (Zdigits2_shiftr m (Z.pos p) Hm ltac:(lia)).
    split; [apply Z.shiftr_nonneg; lia | lia].
  - rewrite shr_record_of_loc_m. lia.
Qed.

Lemma round_nearest_even_bound (m : Z) (l : location) :
  0 ≤ m →
  0 ≤ round_nearest_even m l
  ∧ Zdigits2 (round_nearest_even m l) ≤ Zdigits2 m + 1.
Proof.
  intros Hm. pose proof (Zdigits2_succ m Hm).
  destruct l as [|[]]; simpl; try destruct (Z.even m); lia.
Qed.

Lemma binary_round_aux_finite (s : bool) (m e : Z) (l : location) :
  0 ≤ m → Z.max e (Zdigits2 m + e - 52) ≤ 971 →
  match binary_round_aux 53 1024 s m e l with
  | S754_zero s' => s' = s
  | S754_finite s' m'' e'' =>
      s' = s
      ∧ e'' ≤ Z.max (Z.max e (-1074)) (Zdigits2 m + e - 52)
      ∧ Zdigits2 (Z.pos m'') + e'' ≤ Z.max (Z.max e (-1074)) (Zdigits2 m + e) + 1
  | _ => False
  end.
Proof.
  intros Hm Hbound. unfold binary_round_aux.
  pose proof (shr_fexp_bound m e l Hm) as H1.
  destruct (shr_fexp 53 1024 m e l) as [mrs' e'].
  destruct H1 as (Hm' & He' & Hd').
  destruct (round_nearest_even_bound (shr_m mrs') (loc_of_shr_record mrs') Hm')
    as [Hr Hdr].
  pose proof (shr_fexp_bound _ e' loc_Exact Hr) as H2.
  destruct (shr_fexp 53 1024 _ e' loc_Exact) as [mrs'' e''].
  destruct H2 as (Hm'' & He'' & Hd'').
  unfold fexp, emin in *.
  destruct (shr_m mrs'') as [|m''|m'']; [done | | lia].
  destruct (Z.leb_spec e'' (1024 - 53)); [split; [done | lia] | lia].
Qed.

Lemma iter_xO_digits (d m : positive) :
  Z.pos (digits2_pos (Pos.iter xO m d)) = Z.pos (digits2_pos m) + Z.pos d.
Proof.
  induction d as [|d IH] using Pos.peano_ind.
  - simpl. lia.
  - rewrite Pos.iter_succ. simpl. lia.
Qed.

Lemma shl_align_digits (m : positive) (e e' : Z) :
  let '(mz, ez) := shl_align m e e' in
  ez ≤ e ∧ Zdigits2 (Z.pos mz) + ez = Zdigits2 (Z.pos m) + e.
Proof.
  unfold shl_align. destruct (e' - e) as [|d|d] eqn:Hd; [lia | lia |].
  simpl. rewrite iter_xO_digits. lia.
Qed.

(** The float of a size below [2^63] is finite, exact in sign, and small. *)
Lemma float_of_int_bound (n : nat) :
  Z.of_nat n < 2 ^ 63 →
  ∃ t, float_of_int (Z.of_nat n) = Ok t
    ∧ match t with
      | S754_zero s => s = false
      | S754_finite s m e => s = false ∧ e ≤ 11 ∧ Zdigits2 (Z.pos m) + e ≤ 64
      | _ => False
      end.
Proof.
  intros Hn. unfold float_of_int, binary_normalize.
  destruct (Z.of_nat n) as [|m|m] eqn:Hm; [by eexists | | lia].
  assert (Zdigits2 (Z.pos m) ≤ 63) as Hd.
  { rewrite Zdigits2_log2. apply Z.log2_lt_pow2 in Hn; lia. }
  unfold binary_round.
  pose proof (shl_align_digits m 0 (fexp 53 1024 (Z.pos (digits2_pos m) + 0)))
    as Halign.
  destruct (shl_align m 0 _) as [mz ez]. destruct Halign as [Hez Hdz].
  pose proof (binary_round_aux_finite false (Z.pos mz) ez loc_Exact
                ltac:(lia) ltac:(lia)) as Hround.
  destruct (binary_round_aux 53 1024 false (Z.pos mz) ez loc_Exact)
    as [s|s| |s m' e']; try done; eexists; (split; [done |]).
  - done.
  - destruct Hround as (-> & He & Hmag). split; [done | lia].
Qed.

(** A binary64 ratio between 0 and 1 always gives a cut: the product with
    the size of a corpus of fewer than [2^63] tokens is finite and not
    negative, so [int] succeeds and agrees with the floor. *)
Lemma unit_ratio_floor_cut (total : nat) (ratio : float) :
  Z.of_nat total < 2 ^ 63 →
  valid_binary 53 1024 ratio = true →
  fle f_zero ratio = true → fle ratio f_one = true →
  ∃ a, split_point total ratio = Ok a
    ∧ floor_cut total ratio = Some a ∧ 0 ≤ a.
Proof.
  intros Htotal Hvalid H0 H1.
  cut (∃ a, split_point total ratio = Ok a).
  { intros [a Ha]. exists a. split; [done |].
    destruct (nonneg_ratio_floor_cut total ratio a H0 Ha). done. }
  unfold split_point.
  destruct (float_of_int_bound total Htotal) as (t & -> & Ht).
  destruct t as [st|st| |st mt et]; try done;
    destruct ratio as [sr|sr| |sr mr er]; try done; simpl; try by eexists.
  - by destruct sr.
  - by destruct sr.
  - destruct Ht as (-> & Het & Hmag).
    destruct sr; [done |].
    assert (er ≤ -52) as Her.
    { unfold fle, SFleb, SFcompare, f_one in H1.
      destruct (Z.compare_spec er (-52)); [lia | lia | done]. }
    assert (Zdigits2 (Z.pos mr) ≤ 53) as Hdr.
    { simpl in Hvalid. unfold bounded, canonical_mantissa, fexp, emin in Hvalid.
      apply andb_prop in Hvalid as [Hc _]. apply Z.eqb_eq in Hc. simpl. lia. }
    pose proof (Zdigits2_mul mt mr) as Hmul.
    pose proof (binary_round_aux_finite (xorb false false)
                  (Z.pos (mt * mr)) (et + er) loc_Exact
                  ltac:(lia) ltac:(lia)) as Hround.
    destruct (binary_round_aux 53 1024 _ (Z.pos (mt * mr)) (et + er) loc_Exact);
      try done; by eexists.
Qed.
End RoundingFacts.

(** ** Splitting *)

Section SplitFacts.
Context `{RandomSource}.

(** With both cuts defined and not negative, [split_dataset] returns the
    three intervals of the shuffled tokens. *)
Lemma split_dataset_cuts (self : NuScenesSRDataloader)
    (train_ratio val_ratio test_ratio : float) (random_seed : option Z)
    (st : rng_state) (a c : Z) :
  ratios_invalid train_ratio val_ratio test_ratio = false →
  floor_cut (length (scene_tokens self)) train_ratio = Some a →
  floor_cut (length (scene_tokens self)) val_ratio = Some c →
  (0 ≤ a)%Z → (0 ≤ c)%Z →
  ∃ shuffled st',
    shuffle (scene_tokens self) (seed_if_given random_seed st)
    = (Ok shuffled, st')
    ∧ shuffled ≡ₚ scene_tokens self
    ∧ split_dataset self train_ratio val_ratio test_ratio random_seed st
      = (Ok (interval shuffled 0 a, interval shuffled a (a + c),
             interval shuffled (a + c) (Z.of_nat (length (scene_tokens self)))),
         st').
Proof.
  intros Hvalid Ha Hc Ha0 Hc0.
  destruct (shuffle_perm (scene_tokens self) (seed_if_given random_seed st))
    as (shuffled & st' & Hsh & Hperm).
  exists shuffled, st'. split; [done |]. split; [done |].
  unfold split_dataset. rewrite Hvalid, Hsh.
  rewrite (Permutation_length Hperm).
  rewrite (floor_cut_split_point _ _ _ Ha Ha0),
          (floor_cut_split_point _ _ _ Hc Hc0).
  destruct (py_slices_intervals shuffled a c Ha0 Hc0) as (-> & -> & ->).
  by rewrite (Permutation_length Hperm).
Qed.
End SplitFacts.

(** C1, as stated, fails: the ratios (-0.5, 0.5, 1.0) sum to 1.0 and pass
    validation, and on the two-token corpus the train and test sequences
    then share a token. *)
Lemma split_partition_counterexample :
  ratios_invalid f_neg_half f_half f_one = false
  ∧ @split_dataset counter_rng (init corpus_ab) f_neg_half f_half f_one
      (Some 1%Z) 0
    = (Ok (["a"], [], ["a"; "b"]), 2)
  ∧ ¬ @split_is_partition counter_rng (init corpus_ab)
        f_neg_half f_half f_one (Some 1%Z) 0.
Proof.
  split; [reflexivity |]. split; [vm_compute; reflexivity |].
  intros (train & val & test & st' & Hsplit & _ & Hdisj & _).
  vm_compute in Hsplit. injection Hsplit as <- <- <- <-.
  apply (Hdisj "a"); left.
Qed.

(** C1, amended: when the ratios pass validation and both cut sizes
    [floor(total * train_ratio)] and [floor(total * val_ratio)] are defined
    and not negative, [split_dataset] returns an exact partition of the
    tokens, for every loaded corpus, seed and generator state. *)
Theorem split_partition `{RandomSource} (doc : list (string * SceneRecord))
    (train_ratio val_ratio test_ratio : float) (random_seed : option Z)
    (st : rng_state) (a c : Z) :
  let self := init doc in
  ratios_invalid train_ratio val_ratio test_ratio = false →
  floor_cut (length (scene_tokens self)) train_ratio = Some a →
  floor_cut (length (scene_tokens self)) val_ratio = Some c →
  (0 ≤ a)%Z → (0 ≤ c)%Z →
  split_is_partition self train_ratio val_ratio test_ratio random_seed st.
Proof.
  intros self Hvalid Ha Hc Ha0 Hc0.
  destruct (split_dataset_cuts self _ _ _ random_seed st a c Hvalid Ha Hc Ha0 Hc0)
    as (shuffled & st' & _ & Hperm & Hsplit).
  eexists _, _, _, st'. split; [exact Hsplit |].
  apply (partition_of_split _ shuffled); [apply init_tokens_NoDup | done |].
  rewrite <- (Permutation_length Hperm). by apply intervals_cover.
Qed.

Lemma split_partition_witness :
  @split_is_partition counter_rng (init corpus_ab) f_0_8 f_0_1 f_0_1 (Some 42%Z) 0.
Proof.
  apply (@split_partition counter_rng corpus_ab f_0_8 f_0_1 f_0_1 (Some 42%Z) 0 1%Z 0%Z).
  - reflexivity.
  - reflexivity.
  - reflexivity.
  - lia.
  - lia.
Defined.

(** C2: with a seed given, a split whose ratios pass validation and whose
    two cut sizes [int(total * ratio)] are defined is returned, and it is
    the same triple from whatever state the generator was in before the
    call: the slices of the shuffle that starts from the seeded state. So
    a second call with the same seed, ratios and corpus, made in the state
    the first call left behind, returns the same triple. When no triple is
    returned, the two calls raise the same exception. *)
Theorem split_deterministic `{RandomSource} (doc : list (string * SceneRecord))
    (train_ratio val_ratio test_ratio : float) (seed : Z) (st : rng_state) :
  let self := init doc in
  let total := length (scene_tokens self) in
  let split := split_dataset self train_ratio val_ratio test_ratio
                 (Some seed) in
  (∀ a c,
     ratios_invalid train_ratio val_ratio test_ratio = false →
     split_point total train_ratio = Ok a →
     split_point total val_ratio = Ok c →
     ∃ shuffled st_end,
       shuffle (scene_tokens self) (rng_seed seed) = (Ok shuffled, st_end)
       ∧ shuffled ≡ₚ scene_tokens self
       ∧ let triple :=
           (py_slice shuffled None (Some a),
            py_slice shuffled (Some a) (Some (a + c)%Z),
            py_slice shuffled (Some (a + c)%Z) None) in
         (∀ st', split st' = (Ok triple, st_end))
         ∧ (split st).1 = Ok triple
         ∧ (split (split st).2).1 = Ok triple)
  ∧ (∀ st1 st2, (split st1).1 = (split st2).1)
  ∧ (let first_call := split st in
     let second_call := split first_call.2 in
     first_call.1 = second_call.1).
Proof.
  intros self total split.
  assert (∀ st1 st2, (split st1).1 = (split st2).1) as Hany.
  { intros st1 st2. subst split. unfold split_dataset.
    by destruct (ratios_invalid train_ratio val_ratio test_ratio). }
  split; [| split; [done | apply Hany]].
  intros a c Hvalid Ha Hc.
  destruct (shuffle_perm (scene_tokens self) (rng_seed seed))
    as (shuffled & st_end & Hsh & Hperm).
  exists shuffled, st_end. split; [done |]. split; [done |].
  assert (∀ st', split st'
            = (Ok (py_slice shuffled None (Some a),
                   py_slice shuffled (Some a) (Some (a + c)%Z),
                   py_slice shuffled (Some (a + c)%Z) None), st_end)) as Hrun.
  { intros st'. subst split. unfold split_dataset, seed_if_given.
    rewrite Hvalid, Hsh, (Permutation_length Hperm).
    fold total. by rewrite Ha, Hc. }
  split; [done |]. by rewrite !Hrun.
Qed.

Lemma split_deterministic_witness :
  ∃ shuffled st_end,
    @shuffle counter_rng _ (scene_tokens (init corpus_abc))
      (@rng_seed counter_rng 42)
    = (Ok shuffled, st_end)
    ∧ shuffled ≡ₚ scene_tokens (init corpus_abc)
    ∧ let triple :=
        (py_slice shuffled None (Some 2%Z),
         py_slice shuffled (Some 2%Z) (Some (2 + 0)%Z),
         py_slice shuffled (Some (2 + 0)%Z) None) in
      let split := @split_dataset counter_rng (init corpus_abc)
                     f_0_8 f_0_1 f_0_1 (Some 42%Z) in
      (∀ st', split st' = (Ok triple, st_end))
      ∧ (split 7).1 = Ok triple
      ∧ (split (split 7).2).1 = Ok triple.
Proof.
  apply (proj1 (@split_deterministic counter_rng corpus_abc
                  f_0_8 f_0_1 f_0_1 42%Z 7) 2%Z 0%Z);
    reflexivity.
Defined.

(** C5, as stated, fails for the same valid triple (-0.5, 0.5, 1.0), here
    on three tokens: the floor of -1.5 puts trainEnd at -2, so the interval
    [[0, trainEnd)] is empty, while the code truncates to -1 and its slice
    [shuffled[:-1]] holds two tokens; even the Python slice at the floor,
    [shuffled[:-2]], holds only one. *)
Lemma split_slices_counterexample :
  ratios_invalid f_neg_half f_half f_one = false
  ∧ floor_cut 3 f_neg_half = Some (-2)%Z
  ∧ @split_dataset counter_rng (init corpus_abc) f_neg_half f_half f_one
      (Some 1%Z) 0
    = (Ok (["c"; "a"], [], ["c"; "a"; "b"]), 3)
  ∧ py_slice ["c"; "a"; "b"] None (Some (-2)%Z) = ["c"]
  ∧ ¬ @split_slices_at_floor counter_rng (init corpus_abc)
        f_neg_half f_half f_one (Some 1%Z) 0.
Proof.
  split; [reflexivity |]. split; [reflexivity |].
  split; [vm_compute; reflexivity |]. split; [reflexivity |].
  intros (shuffled & st' & a & c & Hsh & _ & Ha & Hc & Hsplit).
  vm_compute in Hsh. injection Hsh as <- <-.
  vm_compute in Ha. injection Ha as <-.
  vm_compute in Hc. injection Hc as <-.
  vm_compute in Hsplit. discriminate.
Qed.

(** C5, amended: when the ratios pass validation and both floors are
    defined and not negative, train, val and test are the intervals
    [[0, trainEnd)], [[trainEnd, valEnd)] and [[valEnd, total)] of the
    shuffled tokens, with [trainEnd = floor(total * train_ratio)] and
    [valEnd = trainEnd + floor(total * val_ratio)]; and on every two-token
    corpus the ratios (0.5, 0.5, 0.0) give the sizes (1, 1, 0). *)
Theorem split_slices `{RandomSource} (doc : list (string * SceneRecord))
    (random_seed : option Z) (st : rng_state) :
  let self := init doc in
  (∀ train_ratio val_ratio test_ratio a c,
     ratios_invalid train_ratio val_ratio test_ratio = false →
     floor_cut (length (scene_tokens self)) train_ratio = Some a →
     floor_cut (length (scene_tokens self)) val_ratio = Some c →
     (0 ≤ a)%Z → (0 ≤ c)%Z →
     split_slices_at_floor self train_ratio val_ratio test_ratio random_seed st)
  ∧ (length (scene_tokens self) = 2 →
     ∃ train val test st',
       split_dataset self f_half f_half f_zero random_seed st
       = (Ok (train, val, test), st')
       ∧ (length train, length val, length test) = (1, 1, 0)).
Proof.
  intros self. split.
  - intros tr va te a c Hvalid Ha Hc Ha0 Hc0.
    destruct (split_dataset_cuts self tr va te random_seed st a c)
      as (shuffled & st' & Hsh & Hperm & Hsplit); try done.
    by exists shuffled, st', a, c.
  - intros Hlen.
    destruct (split_dataset_cuts self f_half f_half f_zero random_seed st 1 1)
      as (shuffled & st' & Hsh & Hperm & Hsplit);
      try reflexivity; try (rewrite Hlen; reflexivity); try lia.
    eexists _, _, _, st'. split; [exact Hsplit |].
    apply Permutation_length in Hperm. rewrite Hlen in *.
    destruct shuffled as [|x [|y [|z shuffled]]]; simpl in Hperm; try lia.
    reflexivity.
Qed.

Lemma split_slices_witness :
  @split_slices_at_floor counter_rng (init corpus_ab) f_0_8 f_0_1 f_0_1 None 7
  ∧ ∃ train val test st',
      @split_dataset counter_rng (init corpus_ab) f_half f_half f_zero
        (Some 1%Z) 0
      = (Ok (train, val, test), st')
      ∧ (length train, length val, length test) = (1, 1, 0).
Proof.
  split.
  - apply (proj1 (@split_slices counter_rng corpus_ab None 7) f_0_8 f_0_1 f_0_1 1%Z 0%Z);
      [reflexivity | reflexivity | reflexivity | lia | lia].
  - apply (proj2 (@split_slices counter_rng corpus_ab (Some 1%Z) 0)).
    reflexivity.
Defined.

(** C6: [split_dataset] raises the ratio [ValueError], leaving the
    generator untouched and returning no split, exactly when
    [abs(train_ratio + val_ratio + test_ratio - 1.0) > 1e-6] holds in
    binary64 arithmetic; otherwise no such error is raised. *)
Theorem split_ratio_validation `{RandomSource}
    (doc : list (string * SceneRecord))
    (train_ratio val_ratio test_ratio : float) (random_seed : option Z)
    (st : rng_state) :
  let off_by_more_than_tolerance :=
    fgt (fabs (fsub (fadd (fadd train_ratio val_ratio) test_ratio) f_one))
        f_1em6 in
  let outcome :=
    split_dataset (init doc) train_ratio val_ratio test_ratio random_seed st in
  (off_by_more_than_tolerance = true →
     outcome = (Raise (ValueError "Ratios must sum to 1.0"), st))
  ∧ (off_by_more_than_tolerance = false →
     outcome.1 ≠ Raise (ValueError "Ratios must sum to 1.0")).
Proof.
  intros off outcome. subst off outcome. unfold split_dataset, ratios_invalid.
  destruct (fgt _ f_1em6); split; try done. intros _.
  destruct (shuffle_perm (scene_tokens (init doc)) (seed_if_given random_seed st))
    as (shuffled & st' & -> & _).
  destruct (split_point _ train_ratio) as [a|e] eqn:H1; simpl.
  - destruct (split_point _ val_ratio) as [c|e] eqn:H2; simpl; [done |].
    intros [= ->]. by apply split_point_error in H2.
  - intros [= ->]. by apply split_point_error in H1.
Qed.

Lemma split_ratio_validation_witness :
  @split_dataset counter_rng (init corpus_ab) f_half f_0_3 f_0_3 (Some 1%Z) 5
  = (Raise (ValueError "Ratios must sum to 1.0"), 5)
  ∧ (@split_dataset counter_rng (init corpus_ab) f_0_8 f_0_1 f_0_1 (Some 1%Z) 5).1
    ≠ Raise (ValueError "Ratios must sum to 1.0").
Proof.
  split.
  - apply (proj1 (@split_ratio_validation counter_rng corpus_ab
                    f_half f_0_3 f_0_3 (Some 1%Z) 5)).
    reflexivity.
  - apply (proj2 (@split_ratio_validation counter_rng corpus_ab
                    f_0_8 f_0_1 f_0_1 (Some 1%Z) 5)).
    reflexivity.
Defined.

(** ** Sampling *)

Lemma cons_insert_Permutation {A} (l : list A) (j : nat) (x y : A) :
  l !! j = Some x → x :: <[j := y]> l ≡ₚ y :: l.
Proof.
  revert j. induction l as [|a l IH]; intros [|j] Hj; simplify_eq/=.
  - apply perm_swap.
  - rewrite (perm_swap a x), (IH j Hj). apply perm_swap.
Qed.

(** A set of fewer than [n] indices leaves one below [n] out. *)
Lemma exists_fresh_index (n : nat) (selected : gset nat) :
  size selected < n → ∃ j, j < n ∧ j ∉ selected.
Proof.
  intros Hsize.
  destruct (set_choose_or_empty (set_seq 0 n ∖ selected)) as [[j Hj]|Hempty].
  - exists j. apply elem_of_difference in Hj as [Hj ?].
    apply elem_of_set_seq in Hj. split; [lia | done].
  - assert (set_seq 0 n ⊆ selected) as Hsub.
    { intros j Hj. destruct (decide (j ∈ selected)); [done |].
      exfalso. apply (not_elem_of_empty (C:=gset nat) j).
      rewrite <- Hempty. by apply elem_of_difference. }
    apply subseteq_size in Hsub. rewrite size_set_seq in Hsub. lia.
Qed.

Section SampleFacts.
Context `{RandomSource}.

Lemma reject_loop_mono (fuel fuel' : nat) st n selected r :
  reject_loop randbelow fuel st n selected = Some r → fuel ≤ fuel' →
  reject_loop randbelow fuel' st n selected = Some r.
Proof.
  revert fuel' st. induction fuel as [|fuel IH]; intros fuel' st; [done |].
  destruct fuel' as [|fuel']; [lia |]. simpl.
  destruct (randbelow st n) as [j st1].
  destruct (bool_decide (j ∈ selected)); [| done].
  intros Hr Hle. apply IH; [done | lia].
Qed.

Lemma reject_loop_fresh (fuel : nat) st n selected j st' :
  0 < n → reject_loop randbelow fuel st n selected = Some (j, st') →
  j < n ∧ j ∉ selected.
Proof.
  intros Hn. revert st. induction fuel as [|fuel IH]; intros st; [done |].
  simpl. pose proof (randbelow_lt st n Hn) as Hlt.
  destruct (randbelow st n) as [j1 st1].
  destruct (bool_decide_reflect (j1 ∈ selected)); [apply IH |].
  by intros [= <- <-].
Qed.

(** The pool branch keeps the unselected items in the first [n - i] slots
    of [pool]; together with [res] they are the population. *)
Lemma sample_pool_ok {A} (population : list A) (n todo : nat) :
  ∀ (i : nat) (pool res : list A) (st : rng_state),
    length pool = n → i + todo ≤ n →
    res ++ take (n - i) pool ≡ₚ population →
    ∃ res' rest st',
      sample_pool n todo i pool res st = (Ok res', st')
      ∧ length res' = length res + todo
      ∧ res' ++ rest ≡ₚ population.
Proof.
  induction todo as [|todo IH]; intros i pool res st Hlen Hi Hperm.
  - exists res, (take (n - i) pool), st. split; [done |]. split; [lia | done].
  - cbn [sample_pool].
    pose proof (randbelow_lt st (n - i) ltac:(lia)) as Hj.
    destruct (randbelow st (n - i)) as [j st1]. simpl in Hj.
    destruct (lookup_lt_is_Some_2 pool j ltac:(lia)) as [pj Hpj].
    destruct (lookup_lt_is_Some_2 pool (n - i - 1) ltac:(lia)) as [plast Hplast].
    rewrite Hpj, Hplast.
    destruct (IH (S i) (<[j := plast]> pool) (res ++ [pj]) st1)
      as (res' & rest & st' & Hrun & Hlen' & Hperm').
    + by rewrite length_insert.
    + lia.
    + rewrite <- Hperm. replace (n - i) with (S (n - S i)) by lia.
      replace (n - i - 1) with (n - S i) in Hplast by lia.
      rewrite (take_S_r _ _ _ Hplast), <- !app_assoc. f_equiv.
      destruct (decide (j = n - S i)) as [->|Hne].
      * rewrite take_insert_ge by lia. simplify_eq. apply Permutation_app_comm.
      * rewrite take_insert_lt by lia. simpl.
        rewrite cons_insert_Permutation by (rewrite lookup_take_lt; [done | lia]).
        apply Permutation_cons_append.
    + exists res', rest, st'. split; [done |]. split; [| done].
      rewrite Hlen', length_app. simpl. lia.
Qed.

(** The set branch draws pairwise distinct indices; with enough fuel for
    its rejection loops it returns. *)
Lemma sample_set_ok {A} (population : list A) (n todo : nat) :
  n = length population → NoDup population →
  ∀ (selected : gset nat) (res : list A) (st : rng_state),
    size selected + todo ≤ n →
    NoDup res →
    (∀ x, x ∈ res → ∃ j, j ∈ selected ∧ population !! j = Some x) →
    ∃ fuel0, ∀ fuel, fuel0 ≤ fuel →
      ∃ res' st',
        sample_set fuel n todo population selected res st = Some (Ok res', st')
        ∧ length res' = length res + todo
        ∧ NoDup res'
        ∧ (∀ x, x ∈ res' → x ∈ population).
Proof.
  intros Hn Hnd.
  induction todo as [|todo IH]; intros selected res st Hsize Hres Hsel.
  - exists 0. intros fuel _. exists res, st. split; [done |].
    split; [lia |]. split; [done |].
    intros x Hx. destruct (Hsel x Hx) as (j & _ & Hj).
    by apply list_elem_of_lookup_2 in Hj.
  - destruct (randbelow_fresh st n selected) as [fuel1 [[j st1] Hdraw]].
    { apply exists_fresh_index. lia. }
    destruct (reject_loop_fresh fuel1 st n selected j st1 ltac:(lia) Hdraw)
      as [Hj Hfresh].
    destruct (lookup_lt_is_Some_2 population j ltac:(lia)) as [pj Hpj].
    destruct (IH ({[j]} ∪ selected) (res ++ [pj]) st1) as [fuel2 Hrest].
    + rewrite size_union by set_solver. rewrite size_singleton. lia.
    + apply NoDup_app. split; [done |]. split; [| apply NoDup_singleton].
      intros x Hx Hx'. apply list_elem_of_singleton in Hx' as ->.
      destruct (Hsel pj Hx) as (j' & Hj' & Hpj').
      by rewrite (NoDup_lookup population j' j pj Hnd Hpj' Hpj) in Hj'.
    + intros x Hx. apply elem_of_app in Hx as [Hx|Hx].
      * destruct (Hsel x Hx) as (j' & Hj' & Hpj'). exists j'. set_solver.
      * apply list_elem_of_singleton in Hx as ->. exists j. set_solver.
    + exists (fuel1 `max` fuel2). intros fuel Hfuel. cbn [sample_set].
      rewrite (reject_loop_mono fuel1 fuel st n selected (j, st1) Hdraw)
        by lia.
      rewrite Hpj.
      destruct (Hrest fuel ltac:(lia)) as (res' & st' & Hrun & Hlen & Hnd' & Hin).
      exists res', st'. split; [done |]. split; [| done].
      rewrite Hlen, length_app. simpl. lia.
Qed.

(** [random.sample] returns [k] pairwise distinct items of a population
    without repeats, for [0 <= k <= len(population)]. *)
Lemma sample_ok {A} (population : list A) (k : Z) (st : rng_state) :
  NoDup population → (0 ≤ k ≤ Z.of_nat (length population))%Z →
  ∃ fuel0, ∀ fuel, fuel0 ≤ fuel →
    ∃ res st',
      sample fuel population k st = Some (Ok res, st')
      ∧ length res = Z.to_nat k
      ∧ NoDup res
      ∧ (∀ x, x ∈ res → x ∈ population).
Proof.
  intros Hnd Hk. unfold sample.
  rewrite (proj2 (Z.leb_le 0 k)), (proj2 (Z.leb_le k _)) by lia. simpl.
  destruct (bool_decide (length population ≤ setsize (Z.to_nat k))).
  - exists 0. intros fuel _.
    destruct (sample_pool_ok population (length population) (Z.to_nat k)
                0 population [] st) as (res & rest & st' & Hrun & Hlen & Hperm).
    + done.
    + lia.
    + rewrite Nat.sub_0_r, take_ge by lia. done.
    + exists res, st'. split; [by rewrite Hrun |]. split; [done |].
      assert (NoDup (res ++ rest)) as Hnd' by (by rewrite Hperm).
      split; [by apply NoDup_app in Hnd' as [? _] |].
      intros x Hx. rewrite <- Hperm. apply elem_of_app. by left.
  - destruct (sample_set_ok population (length population) (Z.to_nat k)
                eq_refl Hnd ∅ [] st) as [fuel0 Hrun].
    + rewrite size_empty. lia.
    + constructor.
    + intros x Hx. by apply elem_of_nil in Hx.
    + exists fuel0. intros fuel Hfuel.
      destruct (Hrun fuel Hfuel) as (res & st' & ? & ? & ? & ?).
      by exists res, st'.
Qed.
End SampleFacts.

Lemma pair_with_data_ok (d : list (string * SceneRecord)) (tokens : list string) :
  (∀ t, t ∈ tokens → t ∈ dict_keys d) →
  ∃ pairs, pair_with_data d tokens = Ok pairs
    ∧ pairs.*1 = tokens
    ∧ (∀ t r, (t, r) ∈ pairs → dict_get d t = Some r).
Proof.
  induction tokens as [|t tokens IH]; intros Hin.
  - exists []. split; [done |]. split; [done |].
    intros t r Htr. by apply elem_of_nil in Htr.
  - destruct IH as (pairs & Hrun & Hfst & Hget).
    { intros t' Ht'. apply Hin. by right. }
    destruct (proj2 (dict_get_is_Some d t) (Hin t ltac:(left))) as [r Hr].
    exists ((t, r) :: pairs).
    split; [simpl; by rewrite Hr, Hrun |].
    split; [by rewrite fmap_cons, Hfst |].
    intros t' r' Htr. apply elem_of_cons in Htr as [[= -> ->]|Htr]; [done |].
    by apply Hget.
Qed.

(** C7, as stated, fails for a negative [n]: [random.sample] rejects the
    negative size, so no pairs are returned, with any amount of fuel. *)
Lemma sample_scenes_counterexample :
  @sample_scenes counter_rng 0 (init corpus_ab) (-1) (Some 1%Z) 0
  = Some (Raise (ValueError "Sample larger than population or is negative"), 1)
  ∧ ¬ ∃ fuel, @sample_returns counter_rng fuel (init corpus_ab) (-1) (Some 1%Z) 0.
Proof.
  split; [vm_compute; reflexivity |].
  intros (fuel & pairs & st' & Hrun & _). by destruct fuel.
Qed.

(** C7, amended: for [n >= 0], once the rejection loops have enough fuel,
    [sample_scenes] returns [min(n, corpusSize)] pairs with pairwise
    distinct tokens, each a token of the corpus with its record, hence the
    whole corpus size when [n] exceeds it; and with a seed given the
    outcome does not depend on the earlier state of the generator. *)
Theorem sample_scenes_spec `{RandomSource} (doc : list (string * SceneRecord))
    (n : Z) (random_seed : option Z) (st : rng_state) :
  (0 ≤ n)%Z →
  let self := init doc in
  (∃ fuel0, ∀ fuel, fuel0 ≤ fuel →
     sample_returns fuel self n random_seed st
     ∧ ((Z.of_nat (length (data self)) < n)%Z →
        ∃ pairs st',
          sample_scenes fuel self n random_seed st = Some (Ok pairs, st')
          ∧ length pairs = length (data self) ∧ NoDup pairs.*1))
  ∧ (∀ fuel seed st1 st2,
       fst <$> sample_scenes fuel self n (Some seed) st1
       = fst <$> sample_scenes fuel self n (Some seed) st2).
Proof.
  intros Hn self. split; [| done].
  assert (length (scene_tokens self) = length (data self)) as Hlen
    by apply length_fmap.
  destruct (sample_ok (scene_tokens self)
              (Z.min n (Z.of_nat (length (scene_tokens self))))
              (seed_if_given random_seed st))
    as [fuel0 Hrun]; [apply init_tokens_NoDup | lia |].
  exists fuel0. intros fuel Hfuel.
  destruct (Hrun fuel Hfuel) as (toks & st' & Hsample & Hk & Hnd & Hin).
  destruct (pair_with_data_ok (data self) toks) as (pairs & Hpairs & Hfst & Hget).
  { intros t Ht. by apply Hin. }
  assert (sample_scenes fuel self n random_seed st = Some (Ok pairs, st'))
    as Hscenes.
  { unfold sample_scenes. by rewrite Hsample, Hpairs. }
  assert (length pairs = length toks) as Hlp.
  { by rewrite <- Hfst, length_fmap. }
  split.
  - exists pairs, st'. split; [done |]. split; [lia |].
    split; [by rewrite Hfst | done].
  - intros Hbig. exists pairs, st'. split; [done |].
    split; [lia | by rewrite Hfst].
Qed.

Lemma sample_scenes_spec_witness :
  (∃ fuel0, ∀ fuel, fuel0 ≤ fuel →
     @sample_returns counter_rng fuel (init corpus_ab) 5 (Some 42%Z) 0
     ∧ ((Z.of_nat (length (data (init corpus_ab))) < 5)%Z →
        ∃ pairs st',
          @sample_scenes counter_rng fuel (init corpus_ab) 5 (Some 42%Z) 0
          = Some (Ok pairs, st')
          ∧ length pairs = length (data (init corpus_ab)) ∧ NoDup pairs.*1))
  ∧ (∀ fuel seed st1 st2,
       fst <$> @sample_scenes counter_rng fuel (init corpus_ab) 5 (Some seed) st1
       = fst <$> @sample_scenes counter_rng fuel (init corpus_ab) 5 (Some seed) st2).
Proof.
  apply (@sample_scenes_spec counter_rng corpus_ab 5 (Some 42%Z) 0). lia.
Defined.

(** * Further properties of the dataloader *)

(** ** Queries *)

Lemma check_labels_first_invalid (pre post : list string) (l : string) :
  Forall (.∈ ALL_SCENES) pre → l ∉ ALL_SCENES →
  check_labels (pre ++ l :: post) = Raise (ValueError (invalid_label_msg l)).
Proof.
  intros Hpre Hl. induction Hpre as [|x pre Hx _ IH]; simpl.
  - by rewrite bool_decide_eq_true_2.
  - by rewrite bool_decide_eq_false_2 by (by intros ?).
Qed.

Lemma check_labels_Ok (ls : list string) :
  check_labels ls = Ok () ↔ Forall (.∈ ALL_SCENES) ls.
Proof.
  split; [| apply check_labels_valid].
  induction ls as [|l ls IH]; simpl; [constructor |].
  destruct (bool_decide_reflect (l ∉ ALL_SCENES)) as [?|Hl]; [done |].
  intros Hls. constructor; [by apply dec_stable | by apply IH].
Qed.

Lemma labels_query_any (self : NuScenesSRDataloader) (ls : list string) :
  Forall (.∈ ALL_SCENES) ls →
  get_scenes_by_labels self ls "any"
  = Ok (filter (λ p, intersects (labels p.2) ls) (dict_items (data self))).
Proof.
  intros Hvalid. unfold get_scenes_by_labels.
  rewrite (check_labels_valid ls Hvalid). f_equal.
  rewrite (foldl_select (λ p, intersects (labels p.2) ls)); [done |].
  intros acc [token d]; simpl.
  rewrite (bool_decide_ext _ _ (set_intersects (labels d) ls)).
  by destruct (bool_decide (intersects (labels d) ls)).
Qed.

Lemma labels_query_all (self : NuScenesSRDataloader) (ls : list string) :
  Forall (.∈ ALL_SCENES) ls →
  get_scenes_by_labels self ls "all"
  = Ok (filter (λ p, superset_of (labels p.2) ls) (dict_items (data self))).
Proof.
  intros Hvalid. unfold get_scenes_by_labels.
  rewrite (check_labels_valid ls Hvalid). f_equal.
  rewrite (foldl_select (λ p, superset_of (labels p.2) ls)); [done |].
  intros acc [token d]; simpl.
  rewrite (bool_decide_ext _ _ (set_superset (labels d) ls)).
  by destruct (bool_decide (superset_of (labels d) ls)).
Qed.

Lemma label_query (self : NuScenesSRDataloader) (label : string) :
  label ∈ ALL_SCENES →
  get_scenes_by_label self label
  = Ok (filter (λ p, label ∈ labels p.2) (dict_items (data self))).
Proof.
  intros Hvalid. unfold get_scenes_by_label.
  rewrite bool_decide_eq_false_2 by (by intros ?). f_equal.
  rewrite (foldl_select (λ p, label ∈ labels p.2)); [done |].
  by intros acc [token d].
Qed.

Lemma filter_sublist_mono {A} (P Q : A → Prop)
    `{!∀ x, Decision (P x)} `{!∀ x, Decision (Q x)} (l : list A) :
  (∀ x, P x → Q x) → filter P l `sublist_of` filter Q l.
Proof.
  intros HPQ. induction l as [|x l IH]; [done |].
  rewrite !filter_cons.
  destruct (decide (P x)) as [HP|HP].
  - rewrite decide_True by auto. by constructor.
  - destruct (decide (Q x)); [by constructor | done].
Qed.

(** X1: the multi-label query checks the labels before it looks at the
    mode or at the corpus: it raises exactly when some label is outside
    [ALL_SCENES], and the error names the first such label of the list. *)
Theorem get_scenes_by_labels_invalid (doc : list (string * SceneRecord))
    (ls : list string) (mode : string) :
  ((∃ e, get_scenes_by_labels (init doc) ls mode = Raise e)
   ↔ ¬ Forall (.∈ ALL_SCENES) ls)
  ∧ (∀ pre l post,
       ls = pre ++ l :: post → Forall (.∈ ALL_SCENES) pre → l ∉ ALL_SCENES →
       get_scenes_by_labels (init doc) ls mode
       = Raise (ValueError (invalid_label_msg l))).
Proof.
  split.
  - unfold get_scenes_by_labels. rewrite <- check_labels_Ok.
    destruct (check_labels ls) as [[]|e]; split; try done.
    + by intros [e ?].
    + eauto.
  - intros pre l post -> Hpre Hl. unfold get_scenes_by_labels.
    by rewrite check_labels_first_invalid.
Qed.

(** X2: for valid labels the multi-label query depends on the labels as a
    set only: their order and their repetitions in the list do not change
    the result, in any mode. *)
Theorem get_scenes_by_labels_set (doc : list (string * SceneRecord))
    (ls1 ls2 : list string) (mode : string) :
  Forall (.∈ ALL_SCENES) ls1 → (∀ l, l ∈ ls1 ↔ l ∈ ls2) →
  get_scenes_by_labels (init doc) ls1 mode
  = get_scenes_by_labels (init doc) ls2 mode.
Proof.
  intros Hvalid Hsame.
  assert (Forall (.∈ ALL_SCENES) ls2) as Hvalid2.
  { rewrite Forall_forall in *. intros l Hl. apply Hvalid. by apply Hsame. }
  assert ((list_to_set ls1 : gset string) = list_to_set ls2) as Hset.
  { apply set_eq. intros l. by rewrite !elem_of_list_to_set. }
  unfold get_scenes_by_labels.
  rewrite (check_labels_valid ls1 Hvalid), (check_labels_valid ls2 Hvalid2).
  by rewrite Hset.
Qed.

Lemma get_scenes_by_labels_set_witness :
  get_scenes_by_labels (init corpus_ab)
    ["INTERSECTION"; "PED_CROSSING"; "INTERSECTION"] "all"
  = get_scenes_by_labels (init corpus_ab) ["PED_CROSSING"; "INTERSECTION"] "all".
Proof.
  apply get_scenes_by_labels_set.
  - repeat constructor; vm_compute; tauto.
  - intros l. rewrite !elem_of_cons. tauto.
Defined.

(** X3: the single-label query is the multi-label query on the one-label
    list, in either mode, errors included. *)
Theorem get_scenes_by_label_singleton (doc : list (string * SceneRecord))
    (label : string) :
  get_scenes_by_labels (init doc) [label] "any"
  = get_scenes_by_label (init doc) label
  ∧ get_scenes_by_labels (init doc) [label] "all"
    = get_scenes_by_label (init doc) label.
Proof.
  destruct (decide (label ∈ ALL_SCENES)) as [Hin|Hout].
  - assert (Forall (.∈ ALL_SCENES) [label]) as Hvalid by (by constructor).
    rewrite labels_query_any, labels_query_all, label_query by done.
    split; f_equal; apply list_filter_iff; intros [token d]; simpl.
    + unfold intersects. rewrite Exists_exists. split.
      * intros (x & Hx & ->%list_elem_of_singleton). done.
      * intros Hl. exists label. split; [done | by apply list_elem_of_singleton].
    + unfold superset_of. rewrite Forall_singleton. done.
  - unfold get_scenes_by_labels, get_scenes_by_label. simpl.
    by rewrite bool_decide_eq_true_2.
Qed.

(** X4: for valid labels and a label [l] of the query, the records matching
    all labels are among those holding [l], which are among those matching
    any label; each result keeps the corpus order of the next. *)
Theorem get_scenes_by_labels_nested (doc : list (string * SceneRecord))
    (ls : list string) (l : string) :
  Forall (.∈ ALL_SCENES) ls → l ∈ ls →
  ∃ all single any,
    get_scenes_by_labels (init doc) ls "all" = Ok all
    ∧ get_scenes_by_label (init doc) l = Ok single
    ∧ get_scenes_by_labels (init doc) ls "any" = Ok any
    ∧ all `sublist_of` single
    ∧ single `sublist_of` any
    ∧ any `sublist_of` dict_items (data (init doc)).
Proof.
  intros Hvalid Hl.
  assert (l ∈ ALL_SCENES) as HlV by (by eapply Forall_forall in Hvalid).
  eexists _, _, _.
  split; [by apply labels_query_all |].
  split; [by apply label_query |].
  split; [by apply labels_query_any |].
  split; [| split].
  - apply filter_sublist_mono. intros [token d] Hall; simpl in *.
    unfold superset_of in Hall. by eapply Forall_forall in Hall.
  - apply filter_sublist_mono. intros [token d] Hin; simpl in *.
    unfold intersects. apply Exists_exists. by exists l.
  - apply sublist_filter.
Qed.

Lemma get_scenes_by_labels_nested_witness :
  ∃ all single any,
    get_scenes_by_labels (init corpus_ab) ["INTERSECTION"; "TRAFFIC_LIGHT"] "all"
    = Ok all
    ∧ get_scenes_by_label (init corpus_ab) "INTERSECTION" = Ok single
    ∧ get_scenes_by_labels (init corpus_ab) ["INTERSECTION"; "TRAFFIC_LIGHT"] "any"
      = Ok any
    ∧ all `sublist_of` single
    ∧ single `sublist_of` any
    ∧ any `sublist_of` dict_items (data (init corpus_ab)).
Proof.
  apply get_scenes_by_labels_nested.
  - repeat constructor; vm_compute; tauto.
  - left.
Defined.

(** X5: on a corpus whose records all carry a [labels] list, as the
    record type has it, the two built-in groups always pass the label
    validation: [get_dynamic_scenes] and [get_static_scenes] return the
    records with a dynamic, respectively static, label, in corpus order.
    A record is returned by at least one of them exactly when one of its
    labels is among the ten of [ALL_SCENES], so records that carry unknown
    labels only are in neither. *)
Theorem dynamic_static_scenes (doc : list (string * SceneRecord)) :
  let self := init doc in
  ∃ dynamic static,
    get_dynamic_scenes self = Ok dynamic
    ∧ get_static_scenes self = Ok static
    ∧ dynamic = filter (λ p, intersects (labels p.2) DYNAMIC_SCENES)
                       (dict_items (data self))
    ∧ static = filter (λ p, intersects (labels p.2) STATIC_SCENES)
                      (dict_items (data self))
    ∧ (∀ p, p ∈ dynamic ∨ p ∈ static
            ↔ p ∈ dict_items (data self)
              ∧ ∃ l, l ∈ labels p.2 ∧ l ∈ ALL_SCENES).
Proof.
  intros self.
  assert (Forall (.∈ ALL_SCENES) DYNAMIC_SCENES) as Hdyn.
  { apply Forall_forall. intros l Hl. apply elem_of_app. by left. }
  assert (Forall (.∈ ALL_SCENES) STATIC_SCENES) as Hsta.
  { apply Forall_forall. intros l Hl. apply elem_of_app. by right. }
  eexists _, _.
  split; [by apply labels_query_any |]. split; [by apply labels_query_any |].
  split; [done |]. split; [done |].
  intros p. rewrite !list_elem_of_filter. unfold intersects.
  rewrite !Exists_exists. unfold ALL_SCENES. setoid_rewrite elem_of_app.
  split.
  - intros [[(l & Hl & Hd) Hp]|[(l & Hl & Hs) Hp]];
      (split; [done |]); exists l; auto.
  - intros [Hp (l & Hl & [Hd|Hs])]; [left | right];
      (split; [| done]); by exists l.
Qed.

(** ** Loading, lookup and iteration *)

Lemma dict_of_pairs_snoc {K V} `{EqDecision K} (l : list (K * V)) (p : K * V) :
  dict_of_pairs (l ++ [p]) = dict_set (dict_of_pairs l) p.1 p.2.
Proof. unfold dict_of_pairs. by rewrite foldl_snoc. Qed.

Lemma dict_of_pairs_get {K V} `{EqDecision K} (l : list (K * V)) (k : K) :
  dict_get (dict_of_pairs l) k = snd <$> last (filter (λ p, p.1 = k) l).
Proof.
  induction l as [|[k' v] l IH] using rev_ind; [done |].
  rewrite dict_of_pairs_snoc, dict_get_set, filter_app, last_app; simpl.
  rewrite filter_cons, filter_nil; simpl.
  destruct (decide (k' = k)) as [->|Hne]; simpl; [done | by rewrite IH].
Qed.

Lemma dict_of_pairs_keys {K V} `{EqDecision K} (l : list (K * V)) (k : K) :
  k ∈ dict_keys (dict_of_pairs l) ↔ k ∈ l.*1.
Proof.
  rewrite <- dict_get_is_Some, dict_of_pairs_get, fmap_is_Some.
  rewrite list_elem_of_fmap. split.
  - intros [p Hp]. apply last_Some_elem_of, list_elem_of_filter in Hp as [<- Hp].
    by exists p.
  - intros ([k' v] & -> & Hp). simpl.
    destruct (last (filter (λ p, p.1 = k') l)) as [q|] eqn:Hlast; [done |].
    apply last_None in Hlast.
    assert ((k', v) ∈ filter (λ p, p.1 = k') l) as Hin
      by (by apply list_elem_of_filter).
    rewrite Hlast in Hin. by apply elem_of_nil in Hin.
Qed.

Lemma dict_set_length {K V} `{EqDecision K} (d : list (K * V)) k v :
  length (dict_set d k v) ≤ S (length d).
Proof.
  induction d as [|[k' v'] d IH]; simpl; [lia |].
  case_decide; simpl; lia.
Qed.

Lemma dict_of_pairs_length {K V} `{EqDecision K} (l : list (K * V)) :
  length (dict_of_pairs l) ≤ length l.
Proof.
  induction l as [|p l IH] using rev_ind; [done |].
  rewrite dict_of_pairs_snoc, length_app. simpl.
  pose proof (dict_set_length (dict_of_pairs l) p.1 p.2). lia.
Qed.

Lemma dict_of_pairs_NoDup_id {K V} `{EqDecision K} (l : list (K * V)) :
  NoDup l.*1 → dict_of_pairs l = l.
Proof.
  induction l as [|[k v] l IH] using rev_ind; [done |].
  rewrite fmap_app, NoDup_app. intros (Hl & Hk & _).
  rewrite dict_of_pairs_snoc, (IH Hl). apply dict_set_fresh.
  apply dict_get_None. intros Hin. apply (Hk k Hin). simpl. left.
Qed.

Lemma pair_with_data_items (d l : list (string * SceneRecord)) :
  (∀ p, p ∈ l → dict_get d p.1 = Some p.2) → pair_with_data d l.*1 = Ok l.
Proof.
  induction l as [|[t r] l IH]; intros Hget; [done |]. csimpl.
  pose proof (Hget (t, r) ltac:(left)) as Ht. simpl in Ht. rewrite Ht.
  rewrite IH; [done |]. intros p Hp. apply Hget. by right.
Qed.

(** X6: after loading, looking a token up never raises: it gives [None]
    exactly for the tokens that the document lacks, and otherwise the
    record of the last member of the document with that token; indexing
    the loader gives the same, and succeeds exactly on [scene_tokens]. *)
Theorem get_scene_data_loaded (doc : list (string * SceneRecord))
    (token : string) :
  let self := init doc in
  get_scene_data self token = snd <$> last (filter (λ p, p.1 = token) doc)
  ∧ (get_scene_data self token = None ↔ token ∉ doc.*1)
  ∧ (is_Some (__getitem__ self token) ↔ token ∈ scene_tokens self).
Proof.
  intros self. split; [apply dict_of_pairs_get |]. split.
  - unfold get_scene_data. rewrite dict_get_None.
    apply not_iff_compat, dict_of_pairs_keys.
  - apply dict_get_is_Some.
Qed.

(** X7: iterating over the loader never raises [KeyError] and yields the
    [(token, record)] pairs of the corpus in load order, [__len__] of them;
    that is one per distinct token of the document, and the members of the
    document themselves when no token is repeated. *)
Theorem iter_loaded (doc : list (string * SceneRecord)) :
  let self := init doc in
  ∃ pairs,
    __iter__ self = Ok pairs
    ∧ pairs = dict_items (data self)
    ∧ pairs.*1 = scene_tokens self
    ∧ length pairs = __len__ self
    ∧ __len__ self = length (remove_dups doc.*1)
    ∧ __len__ self ≤ length doc
    ∧ (NoDup doc.*1 → pairs = doc).
Proof.
  intros self. exists (data self).
  split.
  { apply pair_with_data_items. intros [t r] Hp.
    apply dict_get_Some_NoDup; [apply init_tokens_NoDup | done]. }
  split; [done |]. split; [done |]. split; [done |]. split; [| split].
  - unfold __len__. rewrite <- (length_fmap fst).
    apply Permutation_length, NoDup_Permutation.
    + apply init_tokens_NoDup.
    + apply NoDup_remove_dups.
    + intros t. rewrite elem_of_remove_dups. apply dict_of_pairs_keys.
  - apply dict_of_pairs_length.
  - apply dict_of_pairs_NoDup_id.
Qed.

(** ** Statistics, entry by entry *)

Lemma counter_fold_get {K} `{EqDecision K} (keys : list K)
    (c : list (K * nat)) (key : K) :
  dict_get (foldl counter_incr c keys) key
  = if decide (occurrences key keys = 0) then dict_get c key
    else Some (default 0 (dict_get c key) + occurrences key keys).
Proof.
  unfold occurrences.
  revert c. induction keys as [|k keys IH]; intros c; simpl; [done |].
  rewrite IH. unfold counter_incr at 1 2. rewrite dict_get_set, filter_cons.
  destruct (decide (key = k)) as [->|Hne].
  - rewrite !(decide_True (P:=k = k)) by done. simpl.
    destruct (decide (length (filter (eq k) keys) = 0)) as [->|?];
      f_equal; lia.
  - rewrite !(decide_False (P:=k = key)) by done.
    by destruct (decide (length (filter (eq key) keys) = 0)).
Qed.

Lemma counter_fold_sum {K} `{EqDecision K} (keys : list K) (c : list (K * nat)) :
  sum_list (dict_values (foldl counter_incr c keys))
  = sum_list (dict_values c) + length keys.
Proof.
  revert c. induction keys as [|k keys IH]; intros c; simpl; [lia |].
  rewrite IH, counter_incr_sum. lia.
Qed.

Lemma counter_fold_keys {K} `{EqDecision K} (keys : list K) (c : list (K * nat)) :
  dict_keys (foldl counter_incr c keys)
  = foldl (λ seen k, if bool_decide (k ∈ seen) then seen else seen ++ [k])
          (dict_keys c) keys.
Proof.
  revert c. induction keys as [|k keys IH]; intros c; simpl; [done |].
  rewrite IH. unfold counter_incr at 1. by rewrite dict_keys_set.
Qed.

Lemma label_statistics_flat (self : NuScenesSRDataloader) :
  get_label_statistics self = foldl counter_incr [] (all_labels self).
Proof.
  unfold get_label_statistics, all_labels.
  generalize (@nil (string * nat)).
  induction (dict_values (data self)) as [|d ds IH]; intros c; csimpl; [done |].
  by rewrite foldl_app, IH.
Qed.

Lemma multi_label_statistics_flat (self : NuScenesSRDataloader) :
  get_multi_label_statistics self
  = foldl counter_incr [] ((λ d, length (labels d)) <$> dict_values (data self)).
Proof. unfold get_multi_label_statistics. by rewrite foldl_fmap. Qed.

(** X8: the count that [get_label_statistics] gives a label is the number
    of times the label occurs over all [labels] lists, a label listed twice
    by one record counting twice; a label that never occurs has no entry
    rather than a zero; and the entries come in the order in which the
    labels first occur in the corpus. *)
Theorem label_statistics_counts (doc : list (string * SceneRecord))
    (label : string) :
  let self := init doc in
  let n := occurrences label (all_labels self) in
  dict_get (get_label_statistics self) label
  = (if decide (n = 0) then None else Some n)
  ∧ dict_keys (get_label_statistics self) = first_occurrences (all_labels self).
Proof.
  intros self n. rewrite label_statistics_flat. split.
  - rewrite counter_fold_get. fold n. by destruct (decide (n = 0)).
  - by rewrite counter_fold_keys.
Qed.

(** X9: [get_multi_label_statistics] maps each number of labels to the
    number of records that have that many, with no entry for a number that
    no record has, and its counts add up to [__len__]. *)
Theorem multi_label_statistics_counts (doc : list (string * SceneRecord))
    (num_labels : nat) :
  let self := init doc in
  let n := length (filter (λ d, length (labels d) = num_labels)
                          (dict_values (data self))) in
  dict_get (get_multi_label_statistics self) num_labels
  = (if decide (n = 0) then None else Some n)
  ∧ sum_list (dict_values (get_multi_label_statistics self)) = __len__ self.
Proof.
  intros self n. rewrite multi_label_statistics_flat. split.
  - rewrite counter_fold_get. unfold occurrences.
    assert (length (filter (num_labels =.)
                      ((λ d, length (labels d)) <$> dict_values (data self)))
            = n) as ->.
    { subst n. induction (dict_values (data self)) as [|d ds IH]; [done |].
      csimpl. rewrite !filter_cons.
      destruct (decide (num_labels = length (labels d))) as [->|Hne].
      - rewrite decide_True by done. simpl. by rewrite IH.
      - by rewrite decide_False by done. }
    by destruct (decide (n = 0)).
  - rewrite counter_fold_sum. simpl.
    unfold __len__, dict_values. by rewrite !length_fmap.
Qed.

Lemma occurrences_cases {K} `{EqDecision K} (key : K) (keys : list K) :
  (key ∈ keys → 1 ≤ occurrences key keys)
  ∧ (key ∉ keys → occurrences key keys = 0)
  ∧ (NoDup keys → occurrences key keys ≤ 1).
Proof.
  unfold occurrences. induction keys as [|k keys (IHin & IHout & IHnd)].
  - split; [by intros ?%elem_of_nil |]. split; [done | simpl; lia].
  - rewrite filter_cons. destruct (decide (key = k)) as [->|Hne]; simpl.
    + split; [lia |]. split; [intros []; left |].
      intros [Hk ?]%NoDup_cons. rewrite IHout by done. lia.
    + split; [| split].
      * intros [?|?]%elem_of_cons; [done | auto].
      * intros Hk. apply IHout. intros ?. apply Hk. by right.
      * intros [_ ?]%NoDup_cons. auto.
Qed.

(** X10: for a valid label, the single-label query never returns more
    scenes than the count that [get_label_statistics] gives the label, and
    returns exactly that many when no record lists a label twice. *)
Theorem label_count_bounds_query (doc : list (string * SceneRecord))
    (label : string) :
  label ∈ ALL_SCENES →
  let self := init doc in
  let count := default 0 (dict_get (get_label_statistics self) label) in
  ∃ scenes,
    get_scenes_by_label self label = Ok scenes
    ∧ length scenes ≤ count
    ∧ (Forall (λ d, NoDup (labels d)) (dict_values (data self)) →
       length scenes = count).
Proof.
  intros Hvalid self count. eexists. split; [by apply label_query |].
  assert (count = occurrences label (all_labels self)) as ->.
  { subst count. rewrite label_statistics_flat, counter_fold_get. simpl.
    by destruct (decide (occurrences label (all_labels self) = 0)) as [->|?]. }
  unfold all_labels, dict_values, dict_items.
  induction (data self) as [|[t d] l [IHle IHeq]]; [done |].
  csimpl. rewrite filter_cons. simpl.
  unfold occurrences in *. rewrite filter_app, length_app.
  destruct (occurrences_cases label (labels d)) as (Hin & Hout & Hnd).
  unfold occurrences in *.
  destruct (decide (label ∈ labels d)) as [Hl|Hl]; simpl.
  - specialize (Hin Hl). split; [lia |].
    intros [Hd Hrest]%Forall_cons. specialize (Hnd Hd).
    specialize (IHeq Hrest). lia.
  - rewrite (Hout Hl). split; [lia |].
    intros [_ Hrest]%Forall_cons. specialize (IHeq Hrest). lia.
Qed.

Lemma label_count_bounds_query_witness :
  ∃ scenes,
    get_scenes_by_label (init corpus_ab) "INTERSECTION" = Ok scenes
    ∧ length scenes
      ≤ default 0 (dict_get (get_label_statistics (init corpus_ab)) "INTERSECTION")
    ∧ (Forall (λ d, NoDup (labels d)) (dict_values (data (init corpus_ab))) →
       length scenes
       = default 0
           (dict_get (get_label_statistics (init corpus_ab)) "INTERSECTION")).
Proof.
  apply (label_count_bounds_query corpus_ab "INTERSECTION").
  apply (bool_decide_unpack _). vm_compute. exact I.
Defined.

(** ** Splits, whatever the ratios *)

Lemma py_slice_length {A} (l1 l2 : list A) (start stop : option Z) :
  length l1 = length l2 →
  length (py_slice l1 start stop) = length (py_slice l2 start stop).
Proof.
  intros Hlen. unfold py_slice.
  rewrite !length_take, !length_drop, Hlen. done.
Qed.

Lemma py_slice_sublist {A} (l : list A) (start stop : option Z) :
  py_slice l start stop `sublist_of` l.
Proof.
  unfold py_slice. etrans; [apply sublist_take | apply sublist_drop].
Qed.

(** The first two slices of [split_dataset] are adjacent, and so are the
    last two unless the middle one is empty. *)
Lemma py_slices_adjacent {A} (s : list A) (a b : Z) :
  py_slice s None (Some a) ++ py_slice s (Some a) (Some b) `sublist_of` s
  ∧ py_slice s (Some a) (Some b) ++ py_slice s (Some b) None `sublist_of` s
  ∧ py_slice s None (Some a) `prefix_of` s
  ∧ py_slice s (Some b) None `suffix_of` s.
Proof.
  unfold py_slice; simpl.
  set (i := slice_index (length s) a). set (j := slice_index (length s) b).
  rewrite Nat.sub_0_r. split; [| split; [| split]].
  - rewrite take_take_drop. apply sublist_take.
  - rewrite (take_ge (drop j s)) by (rewrite length_drop; lia).
    destruct (decide (i ≤ j)) as [Hij|Hij].
    + replace (drop j s) with (drop (j - i) (drop i s))
        by (rewrite drop_drop; f_equal; lia).
      rewrite take_drop. apply sublist_drop.
    + replace (j - i) with 0 by lia. apply sublist_drop.
  - apply prefix_take.
  - rewrite take_ge by (rewrite length_drop; lia). apply suffix_drop.
Qed.

Section SplitOutcome.
Context `{RandomSource}.

(** What a returned split was computed from. *)
Lemma split_dataset_returns (self : NuScenesSRDataloader)
    (train_ratio val_ratio test_ratio : float) (random_seed : option Z)
    (st st' : rng_state) (train val test : list string) :
  split_dataset self train_ratio val_ratio test_ratio random_seed st
  = (Ok (train, val, test), st') →
  ∃ shuffled a c,
    shuffled ≡ₚ scene_tokens self
    ∧ ratios_invalid train_ratio val_ratio test_ratio = false
    ∧ split_point (length (scene_tokens self)) train_ratio = Ok a
    ∧ split_point (length (scene_tokens self)) val_ratio = Ok c
    ∧ train = py_slice shuffled None (Some a)
    ∧ val = py_slice shuffled (Some a) (Some (a + c)%Z)
    ∧ test = py_slice shuffled (Some (a + c)%Z) None.
Proof.
  unfold split_dataset.
  destruct (ratios_invalid _ _ _); [done |].
  destruct (shuffle_perm (scene_tokens self) (seed_if_given random_seed st))
    as (shuffled & st1 & -> & Hperm).
  rewrite (Permutation_length Hperm).
  destruct (split_point _ train_ratio) as [a|]; [| done].
  destruct (split_point _ val_ratio) as [c|]; [| done].
  intros [= <- <- <- <-]. by exists shuffled, a, c.
Qed.

Lemma split_parts_sound (self : NuScenesSRDataloader)
    (train_ratio val_ratio test_ratio : float) (random_seed : option Z)
    (st st' : rng_state) (train val test : list string) :
  NoDup (scene_tokens self) →
  split_dataset self train_ratio val_ratio test_ratio random_seed st
  = (Ok (train, val, test), st') →
  ∃ shuffled,
    shuffled ≡ₚ scene_tokens self
    ∧ NoDup (train ++ val) ∧ NoDup (val ++ test) ∧ NoDup test
    ∧ train `sublist_of` shuffled ∧ val `sublist_of` shuffled
    ∧ test `sublist_of` shuffled
    ∧ train `prefix_of` shuffled ∧ test `suffix_of` shuffled.
Proof.
  intros Hnd Hsplit.
  apply split_dataset_returns in Hsplit
    as (shuffled & a & c & Hperm & _ & _ & _ & -> & -> & ->).
  assert (NoDup shuffled) as Hnds by (by rewrite Hperm).
  destruct (py_slices_adjacent shuffled a (a + c)) as (H1 & H2 & H3 & H4).
  exists shuffled. split; [done |].
  split; [by eapply sublist_NoDup |]. split; [by eapply sublist_NoDup |].
  split; [apply (sublist_NoDup _ shuffled Hnds), py_slice_sublist |].
  repeat split; try apply py_slice_sublist; done.
Qed.
End SplitOutcome.

(** X11: whatever the ratios, a split that is returned holds tokens of the
    corpus only, repeats no token inside a sequence, and keeps train apart
    from val and val apart from test; train is a prefix and test a suffix
    of one permutation of the tokens. Only train and test can overlap. *)
Theorem split_returns_segments `{RandomSource}
    (doc : list (string * SceneRecord))
    (train_ratio val_ratio test_ratio : float) (random_seed : option Z)
    (st st' : rng_state) (train val test : list string) :
  let self := init doc in
  split_dataset self train_ratio val_ratio test_ratio random_seed st
  = (Ok (train, val, test), st') →
  (∀ x, x ∈ train ++ val ++ test → x ∈ scene_tokens self)
  ∧ NoDup train ∧ NoDup val ∧ NoDup test
  ∧ (∀ x, x ∈ train → x ∉ val)
  ∧ (∀ x, x ∈ val → x ∉ test)
  ∧ ∃ shuffled,
      shuffled ≡ₚ scene_tokens self
      ∧ train `prefix_of` shuffled ∧ test `suffix_of` shuffled.
Proof.
  intros self Hsplit.
  destruct (split_parts_sound self _ _ _ _ _ _ _ _ _
              (init_tokens_NoDup doc) Hsplit)
    as (shuffled & Hperm & Htv & Hvt & Ht & Hs1 & Hs2 & Hs3 & Hp & Hsuf).
  apply NoDup_app in Htv as (Hnt & Hd1 & Hnv).
  apply NoDup_app in Hvt as (_ & Hd2 & _).
  split.
  { intros x. rewrite !elem_of_app, <- Hperm.
    intros [?|[?|?]]; eauto using elem_of_sublist. }
  repeat (split; [done |]). by exists shuffled.
Qed.

Lemma split_returns_segments_witness :
  (∀ x, x ∈ ["a"] ++ [] ++ ["a"; "b"] → x ∈ scene_tokens (init corpus_ab))
  ∧ NoDup ["a"] ∧ NoDup (@nil string) ∧ NoDup ["a"; "b"]
  ∧ (∀ x, x ∈ ["a"] → x ∉ @nil string)
  ∧ (∀ x, x ∈ @nil string → x ∉ ["a"; "b"])
  ∧ ∃ shuffled,
      shuffled ≡ₚ scene_tokens (init corpus_ab)
      ∧ ["a"] `prefix_of` shuffled ∧ ["a"; "b"] `suffix_of` shuffled.
Proof.
  apply (@split_returns_segments counter_rng corpus_ab
           f_neg_half f_half f_one (Some 1%Z) 0 2).
  vm_compute. reflexivity.
Defined.

(** X12: the sizes of a split, or the error raised instead, depend on the
    corpus size and the ratios only: two corpora of the same size give the
    same sizes, whatever their tokens, the seeds, the generators and the
    states of the generators. *)
Theorem split_sizes_size_only (R1 R2 : RandomSource)
    (doc1 doc2 : list (string * SceneRecord))
    (train_ratio val_ratio test_ratio : float)
    (seed1 seed2 : option Z) (st1 : @rng_state R1) (st2 : @rng_state R2) :
  length (scene_tokens (init doc1)) = length (scene_tokens (init doc2)) →
  split_sizes
    (@split_dataset R1 (init doc1) train_ratio val_ratio test_ratio seed1 st1).1
  = split_sizes
      (@split_dataset R2 (init doc2) train_ratio val_ratio test_ratio
         seed2 st2).1.
Proof.
  intros Hsize. unfold split_dataset.
  destruct (ratios_invalid _ _ _); [done |].
  destruct (@shuffle_perm R1 _ (scene_tokens (init doc1))
              (seed_if_given seed1 st1)) as (s1 & st1' & -> & Hperm1).
  destruct (@shuffle_perm R2 _ (scene_tokens (init doc2))
              (seed_if_given seed2 st2)) as (s2 & st2' & -> & Hperm2).
  assert (length s1 = length s2) as Hlen.
  { by rewrite (Permutation_length Hperm1), (Permutation_length Hperm2). }
  rewrite Hlen.
  destruct (split_point _ train_ratio) as [a|]; [| done].
  destruct (split_point _ val_ratio) as [c|]; [| done]. simpl.
  by rewrite !(py_slice_length s1 s2) by done.
Qed.

Lemma split_sizes_size_only_witness :
  split_sizes
    (@split_dataset counter_rng (init corpus_ab) f_0_8 f_0_1 f_0_1
       (Some 1%Z) 0).1
  = split_sizes
      (@split_dataset counter_rng (init (drop 1 corpus_abc)) f_0_8 f_0_1 f_0_1
         None 5).1.
Proof.
  apply (split_sizes_size_only counter_rng counter_rng).
  reflexivity.
Defined.

(** X13: when the ratios pass validation and the two floors are not
    negative and together do not exceed the corpus size, the sizes are the
    two floors for train and val, and the whole remainder for test. *)
Theorem split_sizes_floor `{RandomSource} (doc : list (string * SceneRecord))
    (train_ratio val_ratio test_ratio : float) (random_seed : option Z)
    (st : rng_state) (a c : Z) :
  let self := init doc in
  let total := length (scene_tokens self) in
  ratios_invalid train_ratio val_ratio test_ratio = false →
  floor_cut total train_ratio = Some a →
  floor_cut total val_ratio = Some c →
  (0 ≤ a)%Z → (0 ≤ c)%Z → (a + c ≤ Z.of_nat total)%Z →
  ∃ train val test st',
    split_dataset self train_ratio val_ratio test_ratio random_seed st
    = (Ok (train, val, test), st')
    ∧ Z.of_nat (length train) = a
    ∧ Z.of_nat (length val) = c
    ∧ Z.of_nat (length test) = (Z.of_nat total - a - c)%Z.
Proof.
  intros self total Hvalid Ha Hc Ha0 Hc0 Hsum.
  destruct (split_dataset_cuts self _ _ _ random_seed st a c Hvalid Ha Hc Ha0 Hc0)
    as (shuffled & st' & _ & Hperm & Hsplit).
  eexists _, _, _, st'. split; [exact Hsplit |].
  apply Permutation_length in Hperm. fold total in Hperm.
  unfold interval. rewrite !length_drop, !length_take. lia.
Qed.

Lemma split_sizes_floor_witness :
  ∃ train val test st',
    @split_dataset counter_rng (init corpus_abc) f_0_8 f_0_1 f_0_1 (Some 1%Z) 0
    = (Ok (train, val, test), st')
    ∧ Z.of_nat (length train) = 2%Z
    ∧ Z.of_nat (length val) = 0%Z
    ∧ Z.of_nat (length test)
      = (Z.of_nat (length (scene_tokens (init corpus_abc))) - 2 - 0)%Z.
Proof.
  apply (@split_sizes_floor counter_rng corpus_abc f_0_8 f_0_1 f_0_1
           (Some 1%Z) 0 2%Z 0%Z);
    [reflexivity | reflexivity | reflexivity | lia | lia | vm_compute; discriminate].
Defined.

Lemma ratios_invalid_nan (train_ratio val_ratio test_ratio : float) :
  train_ratio = S754_nan ∨ val_ratio = S754_nan ∨ test_ratio = S754_nan →
  ratios_invalid train_ratio val_ratio test_ratio = false.
Proof.
  unfold ratios_invalid, fadd, fsub, fabs, fgt.
  intros [->|[->| ->]]; [| destruct train_ratio
                        | destruct (SFadd 53 1024 train_ratio val_ratio)]; done.
Qed.

Lemma split_point_nan (total : nat) :
  (Z.of_nat total < 2 ^ 63)%Z →
  split_point total S754_nan
  = Raise (ValueError "cannot convert float NaN to integer").
Proof.
  intros Htotal. unfold split_point.
  destruct (float_of_int_bound total Htotal) as (t & -> & Ht).
  by destruct t.
Qed.

(** X14: the validation never rejects a NaN: a triple with a NaN in it
    passes the sum check. With a NaN train ratio the split then fails in
    [int] with its own [ValueError]; with a NaN test ratio it goes through,
    since the test ratio is used by the check alone. *)
Theorem split_nan_ratio `{RandomSource} (doc : list (string * SceneRecord))
    (random_seed : option Z) (st : rng_state) :
  let self := init doc in
  let total := length (scene_tokens self) in
  (∀ train_ratio val_ratio test_ratio,
     train_ratio = S754_nan ∨ val_ratio = S754_nan ∨ test_ratio = S754_nan →
     ratios_invalid train_ratio val_ratio test_ratio = false)
  ∧ (∀ val_ratio test_ratio,
       (Z.of_nat total < 2 ^ 63)%Z →
       (split_dataset self S754_nan val_ratio test_ratio random_seed st).1
       = Raise (ValueError "cannot convert float NaN to integer"))
  ∧ (∀ train_ratio val_ratio a c,
       floor_cut total train_ratio = Some a →
       floor_cut total val_ratio = Some c →
       (0 ≤ a)%Z → (0 ≤ c)%Z →
       split_is_partition self train_ratio val_ratio S754_nan random_seed st).
Proof.
  intros self total. split; [apply ratios_invalid_nan |]. split.
  - intros va te Htotal. unfold split_dataset.
    rewrite ratios_invalid_nan by auto.
    destruct (shuffle_perm (scene_tokens self) (seed_if_given random_seed st))
      as (shuffled & st' & -> & Hperm).
    rewrite (Permutation_length Hperm). fold total.
    by rewrite split_point_nan.
  - intros tr va a c Ha Hc Ha0 Hc0.
    destruct (split_dataset_cuts self tr va S754_nan random_seed st a c)
      as (shuffled & st' & _ & Hperm & Hsplit);
      [apply ratios_invalid_nan; auto | done | done | done | done |].
    eexists _, _, _, st'. split; [exact Hsplit |].
    apply (partition_of_split _ shuffled); [apply init_tokens_NoDup | done |].
    rewrite <- (Permutation_length Hperm). by apply intervals_cover.
Qed.

(** ** Sampling the whole corpus *)

Lemma dict_get_elem_of {K V} `{EqDecision K} (d : list (K * V)) k v :
  dict_get d k = Some v → (k, v) ∈ d.
Proof.
  induction d as [|[k' v'] d IH]; simpl; [done |].
  case_decide as Hk.
  - intros [= ->]. subst. left.
  - intros Hd. right. by apply IH.
Qed.

(** X15: asking for at least as many scenes as the corpus has returns,
    once the rejection loops have enough fuel, every [(token, record)] pair
    of the corpus exactly once, in the order of the draw. *)
Theorem sample_scenes_whole_corpus `{RandomSource}
    (doc : list (string * SceneRecord)) (n : Z) (random_seed : option Z)
    (st : rng_state) :
  let self := init doc in
  (Z.of_nat (__len__ self) ≤ n)%Z →
  ∃ fuel0, ∀ fuel, fuel0 ≤ fuel →
    ∃ pairs st',
      sample_scenes fuel self n random_seed st = Some (Ok pairs, st')
      ∧ pairs ≡ₚ dict_items (data self).
Proof.
  intros self Hn.
  assert (length (scene_tokens self) = __len__ self) as Hlen
    by apply length_fmap.
  destruct (sample_ok (scene_tokens self)
              (Z.min n (Z.of_nat (length (scene_tokens self))))
              (seed_if_given random_seed st))
    as [fuel0 Hrun]; [apply init_tokens_NoDup | lia |].
  exists fuel0. intros fuel Hfuel.
  destruct (Hrun fuel Hfuel) as (toks & st' & Hsample & Hk & Hnd & Hin).
  destruct (pair_with_data_ok (data self) toks) as (pairs & Hpairs & Hfst & Hget).
  { intros t Ht. by apply Hin. }
  exists pairs, st'. split.
  { unfold sample_scenes. by rewrite Hsample, Hpairs. }
  assert (toks ≡ₚ scene_tokens self) as Hperm.
  { apply submseteq_length_Permutation; [by apply NoDup_submseteq | lia]. }
  apply NoDup_Permutation.
  - apply (NoDup_fmap_1 fst). by rewrite Hfst.
  - apply (NoDup_fmap_1 fst), init_tokens_NoDup.
  - intros [t r]. split.
    + intros Hp. by apply dict_get_elem_of, Hget.
    + intros Hp.
      assert (t ∈ pairs.*1) as Ht.
      { rewrite Hfst, Hperm. apply list_elem_of_fmap. by exists (t, r). }
      apply list_elem_of_fmap in Ht as ([t' r'] & -> & Hp'). simpl.
      pose proof (Hget _ _ Hp') as Hr'.
      rewrite (dict_get_Some_NoDup (data self) t' r (init_tokens_NoDup doc) Hp)
        in Hr'.
      by injection Hr' as ->.
Qed.

Lemma sample_scenes_whole_corpus_witness :
  ∃ fuel0, ∀ fuel, fuel0 ≤ fuel →
    ∃ pairs st',
      @sample_scenes counter_rng fuel (init corpus_ab) 10 (Some 1%Z) 0
      = Some (Ok pairs, st')
      ∧ pairs ≡ₚ dict_items (data (init corpus_ab)).
Proof.
  apply (@sample_scenes_whole_corpus counter_rng corpus_ab 10 (Some 1%Z) 0).
  vm_compute. discriminate.
Defined.

(** ** Exporting part of a split *)

Lemma filter_Forall_id {A} (P : A → Prop) `{!∀ x, Decision (P x)} (l : list A) :
  Forall P l → filter P l = l.
Proof.
  induction 1 as [|x l Hx _ IH]; [done |].
  by rewrite filter_cons_True, IH.
Qed.

(** X16: exporting the start [train_tokens[:k]] of the train sequence of a
    returned split, as the usage example does with [k = 10], writes one
    entry per token of that slice, in the order of the slice and with none
    skipped, each holding the labels of the token's record. *)
Theorem export_train_slice `{RandomSource} (doc : list (string * SceneRecord))
    (train_ratio val_ratio test_ratio : float) (random_seed : option Z)
    (st st' : rng_state) (train_tokens val_tokens test_tokens : list string)
    (k : Z) (output_path : string)
    (store : gmap string (list (string * list string))) :
  let self := init doc in
  split_dataset self train_ratio val_ratio test_ratio random_seed st
  = (Ok (train_tokens, val_tokens, test_tokens), st') →
  let chosen := py_slice train_tokens None (Some k) in
  ∃ out,
    reload_labels (export_labels_only self output_path (Some chosen) store)
                  output_path = Some out
    ∧ dict_keys out = chosen
    ∧ (∀ token, token ∈ chosen →
         ∃ d, get_scene_data self token = Some d
              ∧ dict_get out token = Some (labels d)).
Proof.
  intros self Hsplit chosen.
  destruct (split_parts_sound self _ _ _ _ _ _ _ _ _
              (init_tokens_NoDup doc) Hsplit)
    as (shuffled & Hperm & Htv & _ & _ & Hs1 & _).
  assert (chosen `sublist_of` train_tokens) as Hsub by apply py_slice_sublist.
  assert (NoDup chosen) as Hnd.
  { apply NoDup_app in Htv as [Hnt _]. by eapply sublist_NoDup. }
  assert (Forall (λ t, t ∈ dict_keys (data self)) chosen) as Hin.
  { apply Forall_forall. intros t Ht.
    change (t ∈ scene_tokens self). rewrite <- Hperm.
    eauto using elem_of_sublist. }
  exists (labels_only_of self chosen).
  split; [apply lookup_insert_eq |].
  rewrite labels_only_of_closed, (first_occurrences_id chosen Hnd).
  split; [by rewrite entries_keys, filter_Forall_id |].
  intros t Ht.
  destruct (proj2 (dict_get_is_Some (data self) t)) as [d Hd].
  { by eapply Forall_forall in Hin. }
  exists d. split; [done |].
  rewrite dict_get_entries, bool_decide_eq_true_2 by done.
  by rewrite Hd.
Qed.

Lemma export_train_slice_witness :
  ∃ out,
    reload_labels
      (export_labels_only (init corpus_abc) "example_train_labels.json"
         (Some (py_slice ["c"; "a"] None (Some 10%Z))) ∅)
      "example_train_labels.json" = Some out
    ∧ dict_keys out = py_slice ["c"; "a"] None (Some 10%Z)
    ∧ (∀ token, token ∈ py_slice ["c"; "a"] None (Some 10%Z) →
         ∃ d, get_scene_data (init corpus_abc) token = Some d
              ∧ dict_get out token = Some (labels d)).
Proof.
  apply (@export_train_slice counter_rng corpus_abc f_0_8 f_0_1 f_0_1
           (Some 1%Z) 0 3 ["c"; "a"] [] ["b"] 10%Z
           "example_train_labels.json" ∅).
  vm_compute. reflexivity.
Defined.

(** ** Printing the statistics *)

Lemma percentage_of_zero_total (count : nat) :
  percentage_of count 0 = inl (ZeroDivisionError "division by zero").
Proof. done. Qed.

(** With scenes to divide by, only the overflow of the quotient is left as
    an error of the percentage. *)
Lemma percentage_of_error (count total_scenes : nat) (e : stat_exn) :
  total_scenes ≠ 0 → percentage_of count total_scenes = inl e →
  e = OtherError
        (OverflowError "integer division result too large for a float").
Proof.
  intros Htotal. unfold percentage_of, int_truediv.
  destruct (Z.of_nat total_scenes) as [|b|b] eqn:Hb; [lia | |];
    (destruct (Z.of_nat count) as [|a|a]; [done | |]);
    (destruct (SFdiv_core_binary 53 1024 _ 0 _ 0) as [[mz ez] lz]);
    by destruct (binary_round_aux 53 1024 false mz ez lz); intros [= <-].
Qed.

Section QuotientFacts.
Local Open Scope Z_scope.

Lemma Zdigits2_le (m n : Z) : 0 ≤ m ≤ n → Zdigits2 m ≤ Zdigits2 n.
Proof.
  intros [Hm Hmn]. destruct m as [|p|p]; [| | lia].
  - destruct n; simpl; lia.
  - destruct n as [|q|q]; [lia | | lia].
    rewrite !Zdigits2_log2. pose proof (Z.log2_le_mono (Z.pos p) (Z.pos q)). lia.
Qed.

Lemma Zdigits2_shiftl (m : positive) (n : Z) :
  0 ≤ n → Zdigits2 (Z.shiftl (Z.pos m) n) = Zdigits2 (Z.pos m) + n.
Proof.
  intros Hn.
  assert (0 < Z.shiftl (Z.pos m) n) as Hpos.
  { rewrite Z.shiftl_mul_pow2 by done. apply Z.mul_pos_pos; [done |].
    by apply Z.pow_pos_nonneg. }
  destruct (Z.shiftl (Z.pos m) n) as [|q|q] eqn:Hq; [lia | | lia].
  rewrite !Zdigits2_log2, <- Hq, Z.log2_shiftl by lia. lia.
Qed.

(** The quotient of a count below [2^63] by a positive size is a float. *)
Lemma int_truediv_bounded (a b : nat) :
  b ≠ 0%nat → Z.of_nat a < 2 ^ 63 → ∃ q, int_truediv a b = inr q.
Proof.
  intros Hb Ha. unfold int_truediv.
  destruct (Z.of_nat b) as [|pb|pb] eqn:Hpb; [lia | | lia].
  destruct (Z.of_nat a) as [|pa|pa] eqn:Hpa; [by eexists | | lia].
  assert (Zdigits2 (Z.pos pa) ≤ 63) as Hd.
  { rewrite Zdigits2_log2. apply Z.log2_lt_pow2 in Ha; lia. }
  unfold SFdiv_core_binary.
  set (e' := Z.min (fexp 53 1024 (Zdigits2 (Z.pos pa) + 0 - (Zdigits2 (Z.pos pb) + 0)))
                   (0 - 0)).
  assert (e' ≤ 0) as He' by (subst e'; lia).
  set (m' := match 0 - 0 - e' with
             | Z.pos _ => Z.shiftl (Z.pos pa) (0 - 0 - e')
             | Z0 => Z.pos pa
             | Z.neg _ => 0
             end).
  assert (0 ≤ m' ∧ Zdigits2 m' + e' ≤ 63) as [Hm' Hdm'].
  { subst m'. destruct (0 - 0 - e') as [|s|s] eqn:Hs; [lia | | lia].
    rewrite Zdigits2_shiftl by lia. split; [apply Z.shiftl_nonneg |]; lia. }
  pose proof (Z_div_mod m' (Z.pos pb) ltac:(lia)) as Hdiv.
  destruct (Z.div_eucl m' (Z.pos pb)) as [q r]. destruct Hdiv as [Hqr Hr].
  assert (0 ≤ q ≤ m') as Hq by nia.
  pose proof (Zdigits2_le q m' Hq) as Hdq.
  pose proof (binary_round_aux_finite false q e'
                (new_location (Z.pos pb) r) ltac:(lia) ltac:(lia)) as Hround.
  destruct (binary_round_aux 53 1024 false q e' _); try done; by eexists.
Qed.

Lemma percentage_of_bounded (count total_scenes : nat) :
  total_scenes ≠ 0%nat → Z.of_nat count < 2 ^ 63 →
  ∃ p, percentage_of count total_scenes = inr p.
Proof.
  intros Htotal Hcount. unfold percentage_of.
  destruct (int_truediv_bounded count total_scenes Htotal Hcount) as [q ->].
  by eexists.
Qed.
End QuotientFacts.

Lemma print_label_lines_error (label_stats : list (string * nat))
    (total_scenes : nat) (group out out' : list string) (e : stat_exn) :
  print_label_lines label_stats total_scenes group out = (out', Some e) →
  ∃ count, percentage_of count total_scenes = inl e
           ∧ (total_scenes = 0 → group ≠ [] ∧ out' = out).
Proof.
  revert out. induction group as [|label group IH]; intros out; simpl; [done |].
  destruct (percentage_of _ total_scenes) as [e'|p] eqn:Hp.
  - intros [= <- <-]. eauto.
  - intros Hrun. destruct (IH _ Hrun) as (count & Hcount & Hzero).
    exists count. split; [done |]. intros ->.
    by rewrite percentage_of_zero_total in Hp.
Qed.

Lemma print_multi_label_lines_error (multi_label_stats : list (nat * nat))
    (total_scenes : nat) (keys : list nat) (out out' : list string)
    (e : stat_exn) :
  Forall (λ k, is_Some (dict_get multi_label_stats k)) keys →
  print_multi_label_lines multi_label_stats total_scenes keys out
  = (out', Some e) →
  ∃ count, percentage_of count total_scenes = inl e.
Proof.
  intros Hkeys. revert out.
  induction Hkeys as [|k keys [count Hk] _ IH]; intros out; simpl; [done |].
  rewrite Hk. destruct (percentage_of count total_scenes) as [e'|p] eqn:Hp.
  - intros [= <- <-]. eauto.
  - apply IH.
Qed.

Lemma sorted_keys_present {V} (d : list (nat * V)) :
  Forall (λ k, is_Some (dict_get d k)) (merge_sort (≤) (dict_keys d)).
Proof.
  apply Forall_forall. intros k Hk. apply dict_get_is_Some.
  by rewrite merge_sort_Permutation in Hk.
Qed.

(** X17: [print_statistics] ends in [ZeroDivisionError] exactly on the
    empty corpus, where it stops after the heading of the dynamic scenes.
    In its last loop the lookup [multi_label_stats[num_labels]] never
    raises [KeyError], the keys being those of the dictionary itself. *)
Theorem print_statistics_empty_corpus (doc : list (string * SceneRecord)) :
  let self := init doc in
  ((print_statistics self).2 = Some (ZeroDivisionError "division by zero")
   ↔ __len__ self = 0)
  ∧ (__len__ self = 0 →
     (print_statistics self).1
     = [rule; "nuScenes-SR Dataset Statistics"; rule; "Total scenes: 0";
        newline +:+ "Label occurrences:"; newline +:+ "Dynamic Scenes:"])
  ∧ (∀ key, (print_statistics self).2 ≠ Some (OtherError (KeyError key))).
Proof.
  intros self.
  assert (∀ e, (print_statistics self).2 = Some e →
            ∃ count, percentage_of count (length (data self)) = inl e) as Herr.
  { intros e. unfold print_statistics.
    destruct (print_label_lines _ _ DYNAMIC_SCENES _) as [out1 [e1|]] eqn:H1.
    { intros [= ->]. apply print_label_lines_error in H1 as (c & ? & _). eauto. }
    destruct (print_label_lines _ _ STATIC_SCENES _) as [out2 [e2|]] eqn:H2.
    { intros [= ->]. apply print_label_lines_error in H2 as (c & ? & _). eauto. }
    destruct (print_multi_label_lines _ _ _ _) as [out3 [e3|]] eqn:H3; [| done].
    intros [= ->].
    eapply print_multi_label_lines_error; [apply sorted_keys_present | done]. }
  assert (__len__ self = 0 →
          print_statistics self
          = ([rule; "nuScenes-SR Dataset Statistics"; rule; "Total scenes: 0";
              newline +:+ "Label occurrences:"; newline +:+ "Dynamic Scenes:"],
             Some (ZeroDivisionError "division by zero"))) as Hempty.
  { unfold __len__, print_statistics, get_label_statistics. intros Hlen.
    apply nil_length_inv in Hlen. by rewrite Hlen. }
  split; [split |]; [| | split].
  - intros Hraise. destruct (Herr _ Hraise) as [count Hcount].
    destruct (decide (length (data self) = 0)) as [?|Hne]; [done |].
    by apply percentage_of_error in Hcount.
  - intros Hlen. by rewrite (Hempty Hlen).
  - intros Hlen. by rewrite (Hempty Hlen).
  - intros key Hraise. destruct (Herr _ Hraise) as [count Hcount].
    destruct (decide (length (data self) = 0)) as [Hz|Hne].
    + by rewrite Hz, percentage_of_zero_total in Hcount.
    + by apply percentage_of_error in Hcount.
Qed.

Lemma print_label_lines_ok (label_stats : list (string * nat))
    (total_scenes : nat) (group out : list string) :
  total_scenes ≠ 0 →
  (∀ label,
     (Z.of_nat (default 0%nat (dict_get label_stats label)) < 2 ^ 63)%Z) →
  ∃ out', print_label_lines label_stats total_scenes group out = (out', None)
          ∧ length out' = length out + length group.
Proof.
  intros Htotal Hcount. revert out.
  induction group as [|label group IH]; intros out; simpl.
  - exists out. split; [done | lia].
  - destruct (percentage_of_bounded _ total_scenes Htotal (Hcount label))
      as [p ->].
    destruct (IH (out ++ ["  " +:+ label +:+ ": "
                          +:+ pretty (default 0 (dict_get label_stats label))
                          +:+ " (" +:+ format_1f p +:+ "%)"]))
      as (out' & -> & Hlen).
    exists out'. split; [done |]. rewrite Hlen, length_app. simpl. lia.
Qed.

Lemma print_multi_label_lines_ok (multi_label_stats : list (nat * nat))
    (total_scenes : nat) (keys : list nat) (out : list string) :
  total_scenes ≠ 0 →
  Forall (λ k, ∃ count, dict_get multi_label_stats k = Some count
                        ∧ (Z.of_nat count < 2 ^ 63)%Z) keys →
  ∃ out',
    print_multi_label_lines multi_label_stats total_scenes keys out
    = (out', None)
    ∧ length out' = length out + length keys.
Proof.
  intros Htotal Hkeys. revert out.
  induction Hkeys as [|k keys (count & Hk & Hcount) _ IH]; intros out; simpl.
  - exists out. split; [done | lia].
  - rewrite Hk.
    destruct (percentage_of_bounded count total_scenes Htotal Hcount) as [p ->].
    destruct (IH (out ++ ["  " +:+ pretty k +:+ " labels: " +:+ pretty count
                          +:+ " scenes (" +:+ format_1f p +:+ "%)"]))
      as (out' & -> & Hlen).
    exists out'. split; [done |]. rewrite Hlen, length_app. simpl. lia.
Qed.

Lemma occurrences_le_length {K} `{EqDecision K} (key : K) (keys : list K) :
  occurrences key keys ≤ length keys.
Proof. apply length_filter. Qed.

Lemma label_count_le (self : NuScenesSRDataloader) (label : string) :
  default 0 (dict_get (get_label_statistics self) label)
  ≤ length (all_labels self).
Proof.
  rewrite label_statistics_flat, counter_fold_get. simpl.
  pose proof (occurrences_le_length label (all_labels self)).
  destruct (decide (occurrences label (all_labels self) = 0)); simpl; lia.
Qed.

Lemma multi_label_count_le (self : NuScenesSRDataloader) (k count : nat) :
  dict_get (get_multi_label_statistics self) k = Some count →
  count ≤ length (data self).
Proof.
  rewrite multi_label_statistics_flat, counter_fold_get. simpl.
  pose proof (occurrences_le_length k
                ((λ d, length (labels d)) <$> dict_values (data self))) as Hle.
  unfold dict_values in Hle. rewrite !length_fmap in Hle.
  destruct (decide (occurrences k _ = 0)); [done |].
  intros [= <-]. done.
Qed.

(** X18: on a corpus that is not empty, whose records all carry a
    [labels] list, as the record type has it, and with fewer than [2^63]
    scenes and label occurrences, [print_statistics] runs to its end
    without an exception and prints 19 texts and one more for each distinct
    number of labels per scene. *)
Theorem print_statistics_completes (doc : list (string * SceneRecord)) :
  let self := init doc in
  __len__ self ≠ 0 →
  (Z.of_nat (__len__ self) < 2 ^ 63)%Z →
  (Z.of_nat (length (all_labels self)) < 2 ^ 63)%Z →
  (print_statistics self).2 = None
  ∧ length (print_statistics self).1
    = 19 + length (get_multi_label_statistics self).
Proof.
  intros self Hne Hlen Hlabels. unfold __len__ in *. unfold print_statistics.
  assert (∀ label,
    (Z.of_nat (default 0%nat (dict_get (get_label_statistics self) label))
     < 2 ^ 63)%Z) as Hcounts.
  { intros label. pose proof (label_count_le self label). lia. }
  destruct (print_label_lines_ok (get_label_statistics self)
              (length (data self)) DYNAMIC_SCENES
              ([rule; "nuScenes-SR Dataset Statistics"; rule;
                "Total scenes: " +:+ pretty (length (data self))]
               ++ [newline +:+ "Label occurrences:"]
               ++ [newline +:+ "Dynamic Scenes:"]) Hne Hcounts)
    as (out1 & H1 & Hlen1).
  rewrite <- app_assoc, H1.
  destruct (print_label_lines_ok (get_label_statistics self)
              (length (data self)) STATIC_SCENES
              (out1 ++ [newline +:+ "Static Scenes:"]) Hne Hcounts)
    as (out2 & -> & Hlen2).
  destruct (print_multi_label_lines_ok (get_multi_label_statistics self)
              (length (data self))
              (merge_sort (≤) (dict_keys (get_multi_label_statistics self)))
              (out2 ++ [newline +:+ "Multi-label distribution:"]) Hne)
    as (out3 & -> & Hlen3).
  { eapply Forall_impl; [apply sorted_keys_present |].
    intros k [count Hk]. exists count. split; [done |].
    pose proof (multi_label_count_le self k count Hk). lia. }
  split; [done |]. simpl.
  rewrite length_app, Hlen3, length_app, Hlen2, length_app, Hlen1.
  rewrite (Permutation_length (merge_sort_Permutation _ _)).
  unfold dict_keys. rewrite length_fmap. simpl. lia.
Qed.

Lemma print_statistics_completes_witness :
  (print_statistics (init corpus_abc)).2 = None
  ∧ length (print_statistics (init corpus_abc)).1
    = 19 + length (get_multi_label_statistics (init corpus_abc)).
Proof.
  apply (print_statistics_completes corpus_abc).
  - vm_compute. discriminate.
  - vm_compute. reflexivity.
  - vm_compute. reflexivity.
Defined.

(** X19: [scene_tokens] lists every token of the document once, in the
    order in which the tokens first occur in it. *)
Theorem scene_tokens_load_order (doc : list (string * SceneRecord)) :
  scene_tokens (init doc) = first_occurrences doc.*1
  ∧ NoDup (scene_tokens (init doc))
  ∧ (∀ token, token ∈ scene_tokens (init doc) ↔ token ∈ doc.*1).
Proof.
  split; [| split; [apply init_tokens_NoDup | intros t; apply dict_of_pairs_keys]].
  simpl. unfold _load_data.
  induction doc as [|[t d] doc IH] using rev_ind; [done |].
  rewrite dict_of_pairs_snoc, dict_keys_set, fmap_app, IH. simpl.
  by rewrite first_occurrences_snoc.
Qed.

Example ex_label :
  get_scenes_by_label (init corpus_ab) "PED_CROSSING"
  = Ok [("a", mkScene ["PED_CROSSING"] "x")].
Proof. vm_compute. reflexivity. Qed.

Example ex_labels_all :
  get_scenes_by_labels (init corpus_ab) ["INTERSECTION"; "TRAFFIC_LIGHT"] "all"
  = Ok [("b", mkScene ["INTERSECTION"; "TRAFFIC_LIGHT"] "y")].
Proof. vm_compute. reflexivity. Qed.

Example ex_msg :
  get_scenes_by_label (init corpus_ab) "NOT_A_LABEL"
  = Raise (ValueError "Invalid label: NOT_A_LABEL. Must be one of ['PED_CROSSING', 'LEFT_TURN', 'RIGHT_TURN', 'CONSTRUCTION_VEHICLE', 'AVOID_STATIONARY', 'INTERSECTION', 'PARKING_LOT', 'TRAFFIC_LIGHT', 'RAINY_WEATHER', 'CONSTRUCTION_ZONE']").
Proof. vm_compute. reflexivity. Qed.

(** A NaN ratio passes the validation, since every comparison with NaN is
    false; the conversion to [int] then raises. *)
Example ex_split_nan :
  @split_dataset counter_rng (init corpus_ab) S754_nan f_zero f_zero (Some 1%Z) 0
  = (Raise (ValueError "cannot convert float NaN to integer"), 2).
Proof. vm_compute. reflexivity. Qed.

(** The default ratios on the three-token corpus: [int(2.4) = 2] and
    [int(0.3) = 0], the test set takes the remaining token. *)
Example ex_split_default :
  @split_dataset counter_rng (init corpus_abc) f_0_8 f_0_1 f_0_1 (Some 1%Z) 0
  = (Ok (["c"; "a"], [], ["b"]), 3).
Proof. vm_compute. reflexivity. Qed.

(** Sampling more scenes than the corpus has returns each scene once. *)
Example ex_sample_all :
  @sample_scenes counter_rng 0 (init corpus_ab) 10 (Some 1%Z) 0
  = Some (Ok [("b", mkScene ["INTERSECTION"; "TRAFFIC_LIGHT"] "y");
              ("a", mkScene ["PED_CROSSING"] "x")], 3).
Proof. vm_compute. reflexivity. Qed.

(** A token that the corpus lacks is skipped by the export, and a repeated
    token is exported once. *)
Example ex_export :
  reload_labels
    (export_labels_only (init corpus_ab) "out.json"
       (Some ["b"; "missing"; "a"; "b"]) ∅) "out.json"
  = Some [("b", ["INTERSECTION"; "TRAFFIC_LIGHT"]); ("a", ["PED_CROSSING"])].
Proof. vm_compute. reflexivity. Qed.

(** Labels outside the ten are counted as they are. *)
Example ex_statistics :
  get_label_statistics
    (init [("s1", mkScene ["PED_CROSSING"; "UNKNOWN"] "");
           ("s2", mkScene ["UNKNOWN"] "")])
  = [("PED_CROSSING", 1); ("UNKNOWN", 2)].
Proof. vm_compute. reflexivity. Qed.
